(** * Pool: an OT-based OPRF from Learning with Rounding

    A shallow embedding of [main.cpp]: the compile-time parameters, the
    lane extraction from 128-bit OT blocks, the tiling loop of the phase-one
    receiver and the online phase of [main] (Request, BlindEval, Finalize,
    the sanity assertion and the round counter), and [main] from its first
    line with the sizes of the vectors it allocates, followed by the
    properties proved about them.

    Conventions.
    - A C++ [uint] is a [Z] in [[0, 2^32)]; every [uint] operation is followed
      by [u32], its wrap-around.  [u64] does the same for [osuCrypto::u64].
    - A 128-bit [osuCrypto::block] is a [Z]; [lane blk k] is the k-th 32-bit
      word in memory order (x86, little-endian), which is what
      [memcpy(arr, &blk, sizeof(arr))] puts into [arr[k]].
    - The vectors filled by the OT extenders ([b], [Rs_r], [Sc], [bpr],
      [Rc_r], [Ss]) and the key [sk] are read-only in the online phase and far
      too large to enumerate ([n * tau] entries); they are total maps from the
      index to the element.  The vectors a round allocates and fills ([a],
      [e_0], [e_1], [atil], [y]) are lists updated in place. *)

From Stdlib Require Import ZArith List Lia Bool Znumtheory.
From Stdlib Require Strings.Byte.
From stdpp Require Import base numbers list functions.

Local Open Scope Z_scope.

(** ** Machine integers *)

Definition u32 (x : Z) : Z := x mod 2 ^ 32.
Definition u64 (x : Z) : Z := x mod 2 ^ 64.

(** The value of an [int32_t] whose bit pattern is [w], [0 <= w < 2^32]. *)
Definition int32_of_bits (w : Z) : Z := if w <? 2 ^ 31 then w else w - 2 ^ 32.

(** ** Parameters for the preprocessing

    The [const uint] declarations at the top of the file.  The primitive ones
    are the fields of [Params]; the derived ones are computed from them exactly
    as the source does.  [pool] is the configuration the file ships with. *)

Class Params : Type := {
  n : Z;
  tau : Z;
  lg_q : Z;
  lg_lg_p : Z;
  kappa : Z;
  baseOtCount : Z;
  num_rounds : Z
}.

Definition pool : Params := {|
  n := 482;
  tau := Z.shiftl 1 16;
  lg_q := 12;
  lg_lg_p := 3;
  kappa := 6144;
  baseOtCount := 128;
  num_rounds := 10
|}.

Section Pool.
Context {P : Params}.

Definition q : Z := u32 (Z.shiftl 1 lg_q).
Definition lg_p : Z := u32 (Z.shiftl 1 lg_lg_p).
Definition p : Z := u32 (Z.shiftl 1 lg_p).
Definition lg_delta : Z := u32 (7 - lg_lg_p).
Definition delta : Z := u32 (Z.shiftl 1 lg_delta).

(** The three masks the source writes inline as [x & (q - 1)],
    [x & (p - 1)] and [x & (delta - 1)]. *)
Definition mod_q (x : Z) : Z := Z.land x (u32 (q - 1)).
Definition mod_p (x : Z) : Z := Z.land x (u32 (p - 1)).
Definition mod_delta (x : Z) : Z := Z.land x (u32 (delta - 1)).

(** "When changing the parameters, one should be careful to make sure that
    they are consistent.  For example, [tau] should be big enough for
    [num_rounds] of OPRF rounds."  The constraints the arithmetic relies on:
    [tau] is a [uint], the shifts are defined, [q = delta * p], every slot
    index fits a [uint], and the preprocessing covers the rounds. *)
Definition consistent : Prop :=
  0 <= n /\ 0 <= tau < 2 ^ 32 /\ n * tau < 2 ^ 32 /\
  0 <= lg_lg_p <= 4 /\ lg_q = lg_delta + lg_p /\
  0 <= num_rounds <= tau.

(** ** OT blocks and lane extraction *)

Definition block : Type := Z.

Definition lane (blk : block) (k : Z) : Z :=
  Z.land (Z.shiftr blk (32 * k)) (2 ^ 32 - 1).

(** [int32_t arr[4]; memcpy(arr, &blk, sizeof(arr));] then [arr[k]]. *)
Definition arr (blk : block) (k : Z) : Z := int32_of_bits (lane blk k).

(** [uint X = arr[0];] *)
Definition lane0_uint (blk : block) : Z := u32 (arr blk 0).

(** Element [c] of a [std::array<T, 2>] indexed by a bit. *)
Definition at2 {A : Type} (x : A * A) (c : bool) : A := if c then x.2 else x.1.

(** ** Preprocessing material *)

Record Preproc : Type := {
  b : Z -> bool;
  Rs_r : Z -> block;
  Sc : Z -> block * block;
  bpr : Z -> Z;
  Rc_r : Z -> block;
  Ss : Z -> Z -> block
}.

(** *** Phase-one receiver: tiling of the choice bits

    [phase_one_iknp_receive] samples an [n]-bit pattern [b_n] and copies it
    into each of the [tau] rows of [b]:
    [for j < tau: for i < n: b[j * n + i] = b_n[i];]  The index is computed in
    [uint] because [n] is one.  The extender then only reads [b], as its
    choice bits, and fills [Rs_r].  [tile_row] is the inner loop;
    [phase_one_iknp_receive b_n bv] is the vector [b] as the function leaves
    it, from the pattern its PRNG produced and the vector it was passed. *)
Definition tile_row (b_n : Z -> bool) (bv : Z -> bool) (j : nat) : Z -> bool :=
  fold_left
    (fun bv' (i : nat) => <[u32 (u32 (Z.of_nat j * n) + Z.of_nat i) := b_n (Z.of_nat i)]> bv')
    (seq 0 (Z.to_nat n)) bv.

Definition phase_one_iknp_receive (b_n : Z -> bool) (bv : Z -> bool) : Z -> bool :=
  fold_left (tile_row b_n) (seq 0 (Z.to_nat tau)) bv.

(** *** Values parsed in [main] before the online loop *)

(** [b_bar[i] = b[i] ^ sk[i]] for [i < n]. *)
Definition b_bar (M : Preproc) (sk : Z -> bool) (i : Z) : bool := xorb (b M i) (sk i).

(** [Sc_uint[i][0] = arr0[0]; Sc_uint[i][1] = arr1[0];] for [i < n * tau]. *)
Definition Sc_uint (M : Preproc) (i : Z) : Z * Z :=
  (lane0_uint (Sc M i).1, lane0_uint (Sc M i).2).

(** ** The online round *)

(** [dest[k]] converted to [uint]. *)
Definition u8_at (dest : list Byte.byte) (k : nat) : Z :=
  Z.of_N (Byte.to_N (nth k dest Byte.x00)).

(** The index [(ctr * n) + i] of the [i]-th OT of slot [ctr]. *)
Definition slot (ctr : Z) (i : nat) : Z := u32 (u32 (ctr * n) + Z.of_nat i).

Record request_vars : Type := {
  a : list Z;
  e_0 : list Z;
  e_1 : list Z;
  c_sum : Z
}.

(** Body of the Request loop for index [i]. *)
Definition request_body (M : Preproc) (sk : Z -> bool) (ctr : Z)
    (dest : list Byte.byte) (s : request_vars) (i : nat) : request_vars :=
  let high := u8_at dest (2 * i) in
  let low := u8_at dest (2 * i + 1) in
  let a' := <[i := mod_q (Z.lor (u32 (Z.shiftl high 8)) low)]> (a s) in
  let e_0' := <[i := 0]> (e_0 s) in
  let c_i := mod_q (u32 (e_0' !!! i - at2 (Sc_uint M (slot ctr i)) (b_bar M sk (Z.of_nat i)))) in
  let e_1' :=
    <[i := mod_q (u32 (u32 (a' !!! i + c_i)
                       + at2 (Sc_uint M (slot ctr i)) (negb (b_bar M sk (Z.of_nat i)))))]>
      (e_1 s) in
  {| a := a'; e_0 := e_0'; e_1 := e_1'; c_sum := u32 (c_sum s + c_i) |}.

(** The variables Request declares before its loop: three vectors of [n]
    entries and the accumulator. *)
Definition request_init : request_vars :=
  {| a := replicate (Z.to_nat n) 0;
     e_0 := replicate (Z.to_nat n) 0;
     e_1 := replicate (Z.to_nat n) 0;
     c_sum := 0 |}.

Definition request_loop (M : Preproc) (sk : Z -> bool) (ctr : Z)
    (dest : list Byte.byte) : request_vars :=
  fold_left (request_body M sk ctr dest) (seq 0 (Z.to_nat n)) request_init.

(** Request (Fig. 4): the loop, the final reduction of [c_sum], and
    [bpr_bar].  [bpr[ctr]] is a [u64], so the subtraction and the mask are
    done in 64 bits before the result is stored in a [uint]. *)
Definition Request (M : Preproc) (sk : Z -> bool) (ctr : Z)
    (dest : list Byte.byte) : request_vars * Z :=
  let s := request_loop M sk ctr dest in
  let c_sum' := mod_q (c_sum s) in
  let bpr_bar := u32 (mod_delta (u64 (mod_delta c_sum' - bpr M ctr))) in
  ({| a := a s; e_0 := e_0 s; e_1 := e_1 s; c_sum := c_sum' |}, bpr_bar).

(** What BlindEval reads of the client's variables. *)
Definition message (r : request_vars * Z) : list Z * list Z * Z :=
  (e_0 r.1, e_1 r.1, r.2).

Record eval_vars : Type := {
  atil : list (Z * Z);
  atil_sum : Z
}.

(** Body of the first BlindEval loop for index [i]. *)
Definition blind_eval_body (M : Preproc) (sk : Z -> bool) (ctr : Z)
    (e0 e1 : list Z) (s : eval_vars) (i : nat) : eval_vars :=
  let Rs_r_uint := lane0_uint (Rs_r M (slot ctr i)) in
  let atil' :=
    <[i := (mod_q (u32 (e0 !!! i - Rs_r_uint)), mod_q (u32 (e1 !!! i - Rs_r_uint)))]>
      (atil s) in
  {| atil := atil'; atil_sum := u32 (atil_sum s + at2 (atil' !!! i) (sk (Z.of_nat i))) |}.

Definition blind_eval_init : eval_vars :=
  {| atil := replicate (Z.to_nat n) (0, 0); atil_sum := 0 |}.

Definition blind_eval_loop (M : Preproc) (sk : Z -> bool) (ctr : Z)
    (e0 e1 : list Z) : eval_vars :=
  fold_left (blind_eval_body M sk ctr e0 e1) (seq 0 (Z.to_nat n)) blind_eval_init.

(** Body of the second BlindEval loop: entry [i] of the reply. *)
Definition y_body (M : Preproc) (ctr bpr_bar atil_sum' : Z) (y : list Z) (i : nat) : list Z :=
  let Ss_uint := lane0_uint (Ss M ctr (mod_delta (u32 (Z.of_nat i - bpr_bar)))) in
  <[i := mod_p (u32 (Z.shiftr (mod_q (u32 (atil_sum' - Z.of_nat i))) lg_delta + Ss_uint))]> y.

(** BlindEval (Fig. 4). *)
Definition BlindEval (M : Preproc) (sk : Z -> bool) (ctr : Z)
    (e0 e1 : list Z) (bpr_bar : Z) : list Z :=
  let s := blind_eval_loop M sk ctr e0 e1 in
  let atil_sum' := mod_q (atil_sum s) in
  fold_left (y_body M ctr bpr_bar atil_sum') (seq 0 (Z.to_nat delta))
    (replicate (Z.to_nat delta) 0).

(** Finalize (Fig. 4). *)
Definition Finalize (M : Preproc) (ctr c_sum' : Z) (y : list Z) : Z :=
  let Rc_r_uint := lane0_uint (Rc_r M ctr) in
  let y_c_sum_mod_delta := y !!! Z.to_nat (mod_delta c_sum') in
  let y_final := u32 (y_c_sum_mod_delta - Rc_r_uint) in
  let temp_val := Z.shiftr (u32 (c_sum' - mod_delta c_sum')) lg_delta in
  mod_p (u32 (y_final - temp_val)).

(** The sanity check: the reference value computed from [sk] and [a]. *)
Definition eval_z (sk : Z -> bool) (av : list Z) : Z :=
  let acc :=
    fold_left (fun acc (i : nat) => if sk (Z.of_nat i) then u32 (acc + av !!! i) else acc)
      (seq 0 (Z.to_nat n)) 0 in
  mod_p (Z.shiftr acc lg_delta).

(** One iteration of the online loop up to the assertion: the client's [z]
    and the reference [eval_z]. *)
Definition online_round (M : Preproc) (sk : Z -> bool) (ctr : Z)
    (dest : list Byte.byte) : Z * Z :=
  let r := Request M sk ctr dest in
  let '(e0, e1, bpr_bar) := message r in
  let y := BlindEval M sk ctr e0 e1 bpr_bar in
  let z := Finalize M ctr (c_sum r.1) y in
  (z, eval_z sk (a r.1)).

(** ** The online loop of [main]

    What the loop draws from outside: the seeds [(t, x)] that the PRNG hands
    to round [r], and the random oracle, which turns a length and two seeds
    into that many bytes. *)
Record Env : Type := {
  seeds : nat -> Z * Z;
  RandomOracle : Z -> Z -> Z -> list Byte.byte
}.

Record loop_state : Type := {
  round : Z;
  ctr : Z;
  printed : list Z
}.

(** How the loop stops: the guard [round < num_rounds] fails, or
    [assert(eval_z == z)] aborts the process. *)
Inductive outcome : Type :=
| Completed (s : loop_state)
| AssertFailed (s : loop_state).

Definition init_state : loop_state := {| round := 0; ctr := 0; printed := [] |}.

(** One pass through the loop body from state [s]: the state in which the
    assertion is evaluated ([z] is printed before the sanity check) and
    whether it holds. *)
Definition loop_body (E : Env) (M : Preproc) (sk : Z -> bool) (s : loop_state)
    : loop_state * bool :=
  let '(t, x) := seeds E (Z.to_nat (round s)) in
  let size := 2 * n * 1 in
  let dest := RandomOracle E size t x in
  let '(z, ez) := online_round M sk (ctr s) dest in
  ({| round := round s; ctr := ctr s; printed := printed s ++ [z] |}, ez =? z).

(** [ctr++] and [round++] at the end of a completed round. *)
Definition advance (s : loop_state) : loop_state :=
  {| round := round s + 1; ctr := u32 (ctr s + 1); printed := printed s |}.

(** The [for] loop with [k = num_rounds - round] iterations to go.  It
    returns the states at the successive loop heads and how the loop stopped. *)
Fixpoint loop_from (E : Env) (M : Preproc) (sk : Z -> bool) (k : nat) (s : loop_state)
    : list loop_state * outcome :=
  match k with
  | O => ([s], Completed s)
  | S k' =>
      let '(s', ok) := loop_body E M sk s in
      if ok then
        let '(tr, o) := loop_from E M sk k' (advance s') in (s :: tr, o)
      else ([s], AssertFailed s')
  end.

Definition online_phase (E : Env) (M : Preproc) (sk : Z -> bool)
    : list loop_state * outcome :=
  loop_from E M sk (Z.to_nat num_rounds) init_state.

Definition final_state (o : outcome) : loop_state :=
  match o with Completed s => s | AssertFailed s => s end.

(** ** [main] from its first line

    Before the loop [main] builds its vectors from the constants: [b],
    [Rs_r], [Sc] and [Sc_uint] with [n * tau] entries (a product of two
    [uint]s), [bpr] and [Rc_r] with [tau] entries and [Ss] with [tau] rows of
    [delta] blocks.  It then indexes them with [i], with [(ctr * n) + i] and
    with [ctr].  Between its first line and the loop no statement compares one
    constant with another, and no statement reports an error of the
    configuration.  Indexing a vector beyond its end is undefined in C++: the
    run stops there, as [OutOfBounds]. *)

(** [b(n * tau)], [Rs_r(n * tau)], [Sc(n * tau)], [Sc_uint(n * tau)]. *)
Definition phase_one_size : Z := u32 (n * tau).

(** [bpr(tau)], [Rc_r(tau)], [Ss(tau, delta)]. *)
Definition phase_two_size : Z := tau.

(** [for (i = 0; i < n; i++) b_bar[i] = b[i] ^ sk[i];] reads [b[i]]; [sk] and
    [b_bar] have [n] entries. *)
Definition startup_in_bounds : bool :=
  forallb (fun i : nat => Z.of_nat i <? phase_one_size) (seq 0 (Z.to_nat n)).

(** A round with counter [ctr] reads [Sc_uint[(ctr * n) + i]] and
    [Rs_r[(ctr * n) + i]] for [i < n], then [bpr[ctr]], the row [Ss[ctr]] and
    [Rc_r[ctr]].  Its other indices ([i] into the vectors of [n] entries it
    allocates, [2 * i + 1] into the [2 * n] bytes of [dest], a value masked
    with [delta - 1] into [y] and into a row of [Ss]) are always inside. *)
Definition round_in_bounds (ctr : Z) : bool :=
  forallb (fun i : nat => slot ctr i <? phase_one_size) (seq 0 (Z.to_nat n))
  && (ctr <? phase_two_size).

(** How a run of the loop stops: as [loop_from] does, or in a round that
    indexes a vector beyond its end, before that round has printed anything. *)
Inductive main_outcome : Type :=
| Ran (o : outcome)
| OutOfBounds (s : loop_state).

(** The loop with [k] iterations to go, each round checked against the sizes
    of the vectors. *)
Fixpoint main_loop (E : Env) (M : Preproc) (sk : Z -> bool) (k : nat) (s : loop_state)
    : list loop_state * main_outcome :=
  match k with
  | O => ([s], Ran (Completed s))
  | S k' =>
      if round_in_bounds (ctr s) then
        let '(s', ok) := loop_body E M sk s in
        if ok then
          let '(tr, o) := main_loop E M sk k' (advance s') in (s :: tr, o)
        else ([s], Ran (AssertFailed s'))
      else ([s], OutOfBounds s)
  end.

(** What [main] does once the preprocessing threads have filled the vectors
    with [M] and the key [sk] is sampled: the loop that computes [b_bar], the
    parsing of [Sc_uint] (whose index [i < n * tau] is always inside), and
    the online loop from [ctr = 0]. *)
Inductive main_result : Type :=
| StartupOutOfBounds
| Online (r : list loop_state * main_outcome).

Definition main (E : Env) (M : Preproc) (sk : Z -> bool) : main_result :=
  if startup_in_bounds then
    Online (main_loop E M sk (Z.to_nat num_rounds) init_state)
  else StartupOutOfBounds.


End Pool.

(** * Definitions used to state the properties *)

(** ** Sums and partially filled vectors *)

Definition sumZ (l : list Z) : Z := fold_right Z.add 0 l.

(** A vector of [len] entries whose first [m] hold [f 0 .. f (m-1)] and whose
    others still hold the initial [d]. *)
Definition filled {A : Type} (f : nat -> A) (m len : nat) (d : A) : list A :=
  map f (seq 0 m) ++ replicate (len - m) d.

(** ** What the loops of a round write *)

Section RoundValues.
Context {P : Params} (M : Preproc) (sk : Z -> bool) (ctr : Z) (dest : list Byte.byte).

(** The values the Request loop writes at index [i]. *)
Definition a_val (i : nat) : Z :=
  mod_q (Z.lor (u32 (Z.shiftl (u8_at dest (2 * i)) 8)) (u8_at dest (2 * i + 1))).

Definition c_val (i : nat) : Z :=
  mod_q (u32 (0 - at2 (Sc_uint M (slot ctr i)) (b_bar M sk (Z.of_nat i)))).

Definition e_1_val (i : nat) : Z :=
  mod_q (u32 (u32 (a_val i + c_val i)
              + at2 (Sc_uint M (slot ctr i)) (negb (b_bar M sk (Z.of_nat i))))).

(** The values the first BlindEval loop writes at index [i], for the vectors
    [e0], [e1] it received. *)
Definition atil_val (e0 e1 : list Z) (i : nat) : Z * Z :=
  (mod_q (u32 (e0 !!! i - lane0_uint (Rs_r M (slot ctr i)))),
   mod_q (u32 (e1 !!! i - lane0_uint (Rs_r M (slot ctr i))))).

(** Entry [k] of the reply. *)
Definition y_val (bpr_bar atil_sum' : Z) (k : nat) : Z :=
  mod_p (u32 (Z.shiftr (mod_q (u32 (atil_sum' - Z.of_nat k))) lg_delta
              + lane0_uint (Ss M ctr (mod_delta (u32 (Z.of_nat k - bpr_bar)))))).

End RoundValues.

(** ** The readings the specification speaks of *)

(** The two readings of bytes [2i], [2i+1] as a 16-bit integer: low byte
    first (the reading of the specification), and high byte first. *)
Definition le16_at (dest : list Byte.byte) (i : nat) : Z :=
  u8_at dest (2 * i) + 256 * u8_at dest (2 * i + 1).

Definition be16_at (dest : list Byte.byte) (i : nat) : Z :=
  256 * u8_at dest (2 * i) + u8_at dest (2 * i + 1).

(** The value the specification assigns to a round: the inner product of
    [sk] with [av] over the integers, divided by [delta] and reduced modulo
    [p]. *)
Definition inner_product {P : Params} (sk : Z -> bool) (av : list Z) : Z :=
  sumZ (map (fun i : nat => if sk (Z.of_nat i) then av !!! i else 0) (seq 0 (Z.to_nat n))).

Definition lwr_value {P : Params} (sk : Z -> bool) (av : list Z) : Z :=
  (inner_product sk av / delta) mod p.

(** The accumulation the specification compares with: reduce modulo [q]
    after every addition. *)
Definition sum_reducing_each_step {P : Params} (l : list Z) : Z :=
  fold_left (fun acc x => mod_q (acc + x)) l 0.

(** ** Concrete configurations, material and inputs *)

Definition zero_material : Preproc :=
  {| b := fun _ => false; Rs_r := fun _ => 0; Sc := fun _ => (0, 0);
     bpr := fun _ => 0; Rc_r := fun _ => 0; Ss := fun _ _ => 0 |}.

Definition sample_choice (i : Z) : bool := Z.odd (i / 3).

Definition sample_pair (k : Z) : block * block :=
  (k * 2654435761 + 12345 + 2 ^ 35, k * 40503 + 99999 + 2 ^ 31 + 2 ^ 77).

Definition sample_material : Preproc := {|
  b := fun k => sample_choice (k mod 482);
  Rs_r := fun k => at2 (sample_pair k) (sample_choice (k mod 482));
  Sc := sample_pair;
  bpr := fun j => (j * 7 + 3) mod 16;
  Rc_r := fun j => j * 1234567 + ((j * 7 + 3) mod 16) * 987654321 + 2 ^ 31 + 5;
  Ss := fun j k => j * 1234567 + k * 987654321 + 2 ^ 31 + 5
|}.

Definition sample_key (i : Z) : bool := Z.even (i / 5) || Z.odd i.

Definition sample_byte (k : nat) : Byte.byte :=
  match Byte.of_N (N.of_nat ((k * 37 + 11) mod 256)) with
  | Some x => x
  | None => Byte.x00
  end.

Definition sample_dest : list Byte.byte := map sample_byte (seq 0 964).

(** A PRNG and a random oracle to run the loop with. *)
Definition sample_env : Env := {|
  seeds := fun r => (Z.of_nat r, Z.of_nat r + 1);
  RandomOracle := fun size t x =>
    map (fun k => sample_byte (k + Z.to_nat t)) (seq 0 (Z.to_nat size))
|}.



(** * The preprocessing procedures around the online phase

    The remaining loops of [main.cpp] that this file computes itself: the
    tiling of the "unwasteful" IKNP receiver, the extension of [n] Silent-OT
    results to [n * kappa] in [benchmark_alt_preproc], and the batching of the
    two KKRT routines.  Calls into libOTe are kept as what the code can observe
    of them: a PRNG is the stream of values it hands out, an [encode] is the
    block it writes, and the protocol steps are recorded as events. *)

Section Preprocessing.
Context {P : Params}.

(** *** [phase_one_iknp_unwasteful_receive]: the tiling over [kappa] rows *)
Definition phase_one_iknp_unwasteful_receive (b_n : Z -> bool) (bv : Z -> bool)
    : Z -> bool :=
  fold_left (tile_row b_n) (seq 0 (Z.to_nat kappa)) bv.

(** *** Extension of the phase-one results ([benchmark_alt_preproc])

    An [osuCrypto::PRNG] constructed from a seed block: what has been drawn is
    determined by the seed and the number of blocks drawn so far.  [G seed k]
    is the [k]-th block of the stream of [seed]. *)
Record PRNG : Type := {
  prng_seed : block;
  prng_pos : nat
}.

Definition PRNG_new (seed : block) : PRNG := {| prng_seed := seed; prng_pos := 0 |}.

(** [prng.get<osuCrypto::block>()] *)
Definition PRNG_get (G : block -> nat -> block) (g : PRNG) : block * PRNG :=
  (G (prng_seed g) (prng_pos g), {| prng_seed := prng_seed g; prng_pos := S (prng_pos g) |}).

Record extension_vars : Type := {
  silent_ot_n_b : Z -> bool;
  silent_ot_n_Sc : Z -> block * block;
  silent_ot_n_Rs_r : Z -> block
}.

Record extension_column : Type := {
  ext_vars : extension_vars;
  prng_msg_0 : PRNG;
  prng_msg_1 : PRNG;
  prng_res : PRNG
}.

(** Body of the inner loop, for column [i] and row [j]. *)
Definition extension_body (G : block -> nat -> block) (b_n : Z -> bool) (i : nat)
    (s : extension_column) (j : nat) : extension_column :=
  let k := u32 (u32 (Z.of_nat j * n) + Z.of_nat i) in
  let v := ext_vars s in
  let b' := <[k := b_n (Z.of_nat i)]> (silent_ot_n_b v) in
  let '(m0, g0) := PRNG_get G (prng_msg_0 s) in
  let Sc0 := <[k := (m0, (silent_ot_n_Sc v k).2)]> (silent_ot_n_Sc v) in
  let '(m1, g1) := PRNG_get G (prng_msg_1 s) in
  let Sc1 := <[k := ((Sc0 k).1, m1)]> Sc0 in
  let '(r, g2) := PRNG_get G (prng_res s) in
  let Rs' := <[k := r]> (silent_ot_n_Rs_r v) in
  {| ext_vars := {| silent_ot_n_b := b'; silent_ot_n_Sc := Sc1; silent_ot_n_Rs_r := Rs' |};
     prng_msg_0 := g0; prng_msg_1 := g1; prng_res := g2 |}.

(** Body of the outer loop: three PRNGs seeded with the [i]-th Silent-OT
    results, then [kappa] rows. *)
Definition extension_column_loop (G : block -> nat -> block) (b_n : Z -> bool)
    (Sc_n : Z -> block * block) (Rs_r_n : Z -> block)
    (v : extension_vars) (i : nat) : extension_vars :=
  ext_vars
    (fold_left (extension_body G b_n i) (seq 0 (Z.to_nat kappa))
       {| ext_vars := v;
          prng_msg_0 := PRNG_new (Sc_n (Z.of_nat i)).1;
          prng_msg_1 := PRNG_new (Sc_n (Z.of_nat i)).2;
          prng_res := PRNG_new (Rs_r_n (Z.of_nat i)) |}).

Definition phase_one_extension (G : block -> nat -> block) (b_n : Z -> bool)
    (Sc_n : Z -> block * block) (Rs_r_n : Z -> block)
    (v : extension_vars) : extension_vars :=
  fold_left (extension_column_loop G b_n Sc_n Rs_r_n) (seq 0 (Z.to_nat n)) v.

(** *** The KKRT routines of phase two

    The steps of the extender that the two routines go through, in order. *)
Inductive kkrt_event : Type :=
| KConfigure (statisticalSecurityParam lg : Z)
| KInit (count : Z)
| KEncode (i choice : Z)
| KSendCorrection (count : Z)
| KRecvCorrection (count : Z)
| KCheck
| KFlush.

(** [int step = 1 << 10;] *)
Definition step : Z := Z.shiftl 1 10.

(** [int min = std::min<osuCrypto::u64>(tau - i, step);] *)
Definition batch (i : Z) : Z := Z.min (u64 (u32 (tau - i))) (u64 step).

Record kkrt_receiver : Type := {
  recv_i : Z;
  recv_drawn : nat;
  recv_bpr : Z -> Z;
  recv_Rc_r : Z -> block;
  recv_trace : list kkrt_event
}.

(** Body of the receiver's inner loop: draw a byte, keep its low [lg_delta]
    bits as the choice of OT [i], encode it.  [draws k] is the [k]-th byte the
    PRNG hands out in the loop and [enc i c] the block [encode] writes. *)
Definition receive_body (draws : nat -> Byte.byte) (enc : Z -> Z -> block)
    (s : kkrt_receiver) (j : nat) : kkrt_receiver :=
  let i := recv_i s in
  let c := u64 (Z.land (Z.of_N (Byte.to_N (draws (recv_drawn s)))) (u32 (delta - 1))) in
  {| recv_i := i + 1;
     recv_drawn := S (recv_drawn s);
     recv_bpr := <[i := c]> (recv_bpr s);
     recv_Rc_r := <[i := enc i c]> (recv_Rc_r s);
     recv_trace := recv_trace s ++ [KEncode i c] |}.

(** The loop [for (i = 0; i < tau;)]: it has no bound of its own, so the
    model counts its iterations down from [fuel] and yields [None] when they
    run out. *)
Fixpoint receive_loop (draws : nat -> Byte.byte) (enc : Z -> Z -> block)
    (fuel : nat) (s : kkrt_receiver) : option kkrt_receiver :=
  if u32 (recv_i s) <? tau then
    match fuel with
    | O => None
    | S fuel' =>
        let min := batch (recv_i s) in
        let s1 := fold_left (receive_body draws enc) (seq 0 (Z.to_nat min)) s in
        receive_loop draws enc fuel'
          {| recv_i := recv_i s1; recv_drawn := recv_drawn s1;
             recv_bpr := recv_bpr s1; recv_Rc_r := recv_Rc_r s1;
             recv_trace := recv_trace s1 ++ [KSendCorrection min] |}
    end
  else Some s.

(** [receiveRoutine] of [phase_two_kkrt_receive]. *)
Definition phase_two_kkrt_receive (statisticalSecurityParam : Z)
    (draws : nat -> Byte.byte) (enc : Z -> Z -> block)
    (bpr0 : Z -> Z) (Rc_r0 : Z -> block) (fuel : nat) : option kkrt_receiver :=
  match
    receive_loop draws enc fuel
      {| recv_i := 0; recv_drawn := 0; recv_bpr := bpr0; recv_Rc_r := Rc_r0;
         recv_trace := [KConfigure statisticalSecurityParam lg_delta; KInit tau] |}
  with
  | Some s =>
      Some {| recv_i := recv_i s; recv_drawn := recv_drawn s;
              recv_bpr := recv_bpr s; recv_Rc_r := recv_Rc_r s;
              recv_trace := recv_trace s ++ [KCheck; KFlush] |}
  | None => None
  end.

Record kkrt_sender : Type := {
  send_i : Z;
  send_Ss : Z -> Z -> block;
  send_trace : list kkrt_event
}.

(** [for (int k = 0; k < delta; k++)]: encode every possible choice of OT
    [i]. *)
Definition send_choice (enc : Z -> Z -> block) (i : Z) (s : kkrt_sender) (k : nat)
    : kkrt_sender :=
  let choice := Z.of_nat k in
  {| send_i := send_i s;
     send_Ss := <[i := <[Z.of_nat k := enc i choice]> (send_Ss s i)]> (send_Ss s);
     send_trace := send_trace s ++ [KEncode i choice] |}.

(** Body of the sender's loop over the OTs of a batch. *)
Definition send_body (enc : Z -> Z -> block) (s : kkrt_sender) (j : nat) : kkrt_sender :=
  let s1 := fold_left (send_choice enc (send_i s)) (seq 0 (Z.to_nat delta)) s in
  {| send_i := send_i s1 + 1; send_Ss := send_Ss s1; send_trace := send_trace s1 |}.

Fixpoint send_loop (enc : Z -> Z -> block) (fuel : nat) (s : kkrt_sender)
    : option kkrt_sender :=
  if u32 (send_i s) <? tau then
    match fuel with
    | O => None
    | S fuel' =>
        let min := batch (send_i s) in
        let s0 :=
          {| send_i := send_i s; send_Ss := send_Ss s;
             send_trace := send_trace s ++ [KRecvCorrection min] |} in
        send_loop enc fuel' (fold_left (send_body enc) (seq 0 (Z.to_nat min)) s0)
    end
  else Some s.

(** [sendRoutine] of [phase_two_kkrt_send]. *)
Definition phase_two_kkrt_send (statisticalSecurityParam : Z)
    (enc : Z -> Z -> block) (Ss0 : Z -> Z -> block) (fuel : nat) : option kkrt_sender :=
  match
    send_loop enc fuel
      {| send_i := 0; send_Ss := Ss0;
         send_trace := [KConfigure statisticalSecurityParam lg_delta; KInit tau] |}
  with
  | Some s =>
      Some {| send_i := send_i s; send_Ss := send_Ss s;
              send_trace := send_trace s ++ [KCheck; KFlush] |}
  | None => None
  end.

End Preprocessing.

(** ** Closed forms for the KKRT routines *)

(** The corrections exchanged for [r] OTs: full batches of [step], then the
    rest. *)
Definition batch_sizes (r : Z) : list Z :=
  replicate (Z.to_nat (r / step)) step ++ (if r mod step =? 0 then [] else [r mod step]).

(** The batches with the index of their first OT. *)
Fixpoint batches_from (i : Z) (sizes : list Z) : list (Z * Z) :=
  match sizes with
  | [] => []
  | m :: rest => (i, m) :: batches_from (i + m) rest
  end.

(** The choice the receiver makes for OT [i]. *)
Definition choice_of {P : Params} (draws : nat -> Byte.byte) (i : Z) : Z :=
  Z.of_N (Byte.to_N (draws (Z.to_nat i))) mod delta.

(** What the receiver does for one batch, and what the sender does. *)
Definition receive_batch {P : Params} (draws : nat -> Byte.byte) (bt : Z * Z)
    : list kkrt_event :=
  map (fun t : nat => KEncode (bt.1 + Z.of_nat t) (choice_of draws (bt.1 + Z.of_nat t)))
    (seq 0 (Z.to_nat bt.2))
  ++ [KSendCorrection bt.2].

Definition send_batch {P : Params} (bt : Z * Z) : list kkrt_event :=
  KRecvCorrection bt.2
  :: concat (map (fun t : nat =>
                    map (fun k : nat => KEncode (bt.1 + Z.of_nat t) (Z.of_nat k))
                      (seq 0 (Z.to_nat delta)))
               (seq 0 (Z.to_nat bt.2))).

Definition corrections (tr : list kkrt_event) : list Z :=
  concat (map (fun e => match e with
                        | KSendCorrection m => [m]
                        | KRecvCorrection m => [m]
                        | _ => []
                        end) tr).

(** The same loops with [rows] rows instead of [tau]: the configuration that
    has [rows] in the place of [tau] shares [n], hence [tile_row]. *)
Definition with_rows {P : Params} (rows : Z) : Params := {|
  n := n; tau := rows; lg_q := 12; lg_lg_p := 3;
  kappa := kappa; baseOtCount := baseOtCount; num_rounds := 0
|}.

(** A stream to run the extension with, and [n] OT-correct results. *)
Definition sample_stream (seed : block) (k : nat) : block := seed * 31 + Z.of_nat k.

Definition sample_results (i : Z) : block := at2 (sample_pair i) (sample_choice i).

Definition empty_extension : extension_vars :=
  {| silent_ot_n_b := fun _ => false;
     silent_ot_n_Sc := fun _ => (0, 0);
     silent_ot_n_Rs_r := fun _ => 0 |}.

Definition is_encode (e : kkrt_event) : Prop :=
  match e with KEncode _ _ => True | _ => False end.

(** ** The rounds of a session *)

(** The oracle output of round [r], the client's [z] in that round, and
    whether its sanity assertion holds. *)
Definition round_dest {P : Params} (E : Env) (r : Z) : list Byte.byte :=
  let '(t, x) := seeds E (Z.to_nat r) in RandomOracle E (2 * n * 1) t x.

Definition round_z {P : Params} (E : Env) (M : Preproc) (sk : Z -> bool) (r : Z) : Z :=
  (online_round M sk r (round_dest E r)).1.

Definition round_passes {P : Params} (E : Env) (M : Preproc) (sk : Z -> bool) (r : Z)
    : bool :=
  (online_round M sk r (round_dest E r)).2 =? (online_round M sk r (round_dest E r)).1.

(** ** More concrete material *)

Definition sample_enc (i choice : Z) : block := i * 16 + choice.

(** [sample_material] with [Rc_r] of slot 2 off by one. *)
Definition corrupted_material : Preproc := {|
  b := b sample_material;
  Rs_r := Rs_r sample_material;
  Sc := Sc sample_material;
  bpr := bpr sample_material;
  Rc_r := fun j => if j =? 2 then Rc_r sample_material j + 1 else Rc_r sample_material j;
  Ss := Ss sample_material
|}.

(** [sample_material] with other contents in lanes 1 to 3 of every block. *)
Definition relaned_material : Preproc := {|
  b := b sample_material;
  Rs_r := fun k => Rs_r sample_material k + 2 ^ 32 * 5;
  Sc := fun k => ((Sc sample_material k).1 + 2 ^ 32 * 7, (Sc sample_material k).2 + 2 ^ 32 * 11);
  bpr := bpr sample_material;
  Rc_r := fun j => Rc_r sample_material j + 2 ^ 32 * 13;
  Ss := fun j k => Ss sample_material j k + 2 ^ 32 * 17
|}.

(** A small configuration, and material for it whose choice vector is the
    one the phase-one receiver tiles. *)
Definition tiny : Params := {|
  n := 4;
  tau := 2;
  lg_q := 12;
  lg_lg_p := 3;
  kappa := 3;
  baseOtCount := 128;
  num_rounds := 2
|}.

Definition tiled_material : Preproc := {|
  b := phase_one_iknp_receive (P := tiny) sample_choice (fun _ => false);
  Rs_r := fun k =>
    at2 (sample_pair k) (phase_one_iknp_receive (P := tiny) sample_choice (fun _ => false) k);
  Sc := sample_pair;
  bpr := bpr sample_material;
  Rc_r := Rc_r sample_material;
  Ss := Ss sample_material
|}.

(** * Properties *)

(** ** Wrap-around and power-of-two moduli *)

Lemma pow2_pos (k : Z) : 0 <= k -> 0 < 2 ^ k.
Proof. intros Hk. apply Z.pow_pos_nonneg; lia. Qed.

Lemma pow2_divide (k m : Z) : 0 <= k <= m -> (2 ^ k | 2 ^ m).
Proof.
  intros Hk. exists (2 ^ (m - k)).
  rewrite <- Z.pow_add_r by lia. f_equal; lia.
Qed.

(** Reducing modulo [2^m] first does not change a residue modulo [2^k],
    [k <= m]. *)
Lemma mod_pow2_inner (x k m : Z) :
  0 <= k <= m -> (x mod 2 ^ m) mod 2 ^ k = x mod 2 ^ k.
Proof.
  intros Hk. apply Z.mod_mod_divide, pow2_divide; lia.
Qed.

Lemma u32_mod_pow2 (x k : Z) : 0 <= k <= 32 -> u32 x mod 2 ^ k = x mod 2 ^ k.
Proof. intros Hk. unfold u32. apply mod_pow2_inner; lia. Qed.

Lemma u64_mod_pow2 (x k : Z) : 0 <= k <= 64 -> u64 x mod 2 ^ k = x mod 2 ^ k.
Proof. intros Hk. unfold u64. apply mod_pow2_inner; lia. Qed.

Lemma u32_range (x : Z) : 0 <= u32 x < 2 ^ 32.
Proof. unfold u32. apply Z.mod_pos_bound. lia. Qed.

Lemma u32_small (x : Z) : 0 <= x < 2 ^ 32 -> u32 x = x.
Proof. intros Hx. unfold u32. apply Z.mod_small. lia. Qed.

Lemma u32_shiftl_1 (k : Z) : 0 <= k < 32 -> u32 (Z.shiftl 1 k) = 2 ^ k.
Proof.
  intros Hk. rewrite Z.shiftl_mul_pow2, Z.mul_1_l by lia.
  apply u32_small. split; [apply Z.lt_le_incl, pow2_pos; lia|].
  apply Z.pow_lt_mono_r; lia.
Qed.

(** [x & (2^k - 1)] is [x mod 2^k], for every integer [x]. *)
Lemma land_mask (x k : Z) : 0 <= k -> Z.land x (2 ^ k - 1) = x mod 2 ^ k.
Proof.
  intros Hk. rewrite <- Z.land_ones by lia.
  f_equal. rewrite Z.ones_equiv. lia.
Qed.

(** Dropping the low digit commutes with reducing: the quotient by [d] of a
    residue modulo [d * m] is the residue modulo [m] of the quotient. *)
Lemma div_of_mod_mul (x d m : Z) :
  0 < d -> 0 < m -> (x mod (d * m)) / d = (x / d) mod m.
Proof.
  intros Hd Hm. rewrite Z.rem_mul_r by lia.
  rewrite (Z.mul_comm d), Z.div_add by lia.
  rewrite Z.div_small by (apply Z.mod_pos_bound; lia). lia.
Qed.

(** Casting a signed 32-bit lane to [uint] gives back its bit pattern. *)
Lemma u32_int32_of_bits (w : Z) : u32 (int32_of_bits w) = u32 w.
Proof.
  unfold int32_of_bits, u32. destruct (w <? 2 ^ 31); [reflexivity|].
  replace (w - 2 ^ 32) with (w + (-1) * 2 ^ 32) by lia.
  apply Z.mod_add. lia.
Qed.

Lemma lane_range (blk : block) (k : Z) : 0 <= lane blk k < 2 ^ 32.
Proof.
  unfold lane. rewrite (land_mask _ 32) by lia.
  apply Z.mod_pos_bound. lia.
Qed.

Lemma lane0_uint_lane (blk : block) : lane0_uint blk = lane blk 0.
Proof.
  unfold lane0_uint, arr. rewrite u32_int32_of_bits.
  apply u32_small, lane_range.
Qed.

(** ** The derived parameters of a consistent configuration *)

Section Derived.
Context {P : Params} (HP : consistent).

Lemma lg_delta_eq : lg_delta = 7 - lg_lg_p.
Proof. destruct HP as (_ & _ & _ & Hl & _). unfold lg_delta. apply u32_small. lia. Qed.

Lemma lg_p_eq : lg_p = 2 ^ lg_lg_p.
Proof. destruct HP as (_ & _ & _ & Hl & _). unfold lg_p. apply u32_shiftl_1. lia. Qed.

Lemma lg_p_range : 1 <= lg_p <= 16.
Proof.
  destruct HP as (_ & _ & _ & Hl & _). rewrite lg_p_eq. split.
  - change 1 with (2 ^ 0). apply Z.pow_le_mono_r; lia.
  - change 16 with (2 ^ 4). apply Z.pow_le_mono_r; lia.
Qed.

Lemma lg_delta_range : 3 <= lg_delta <= 7.
Proof. destruct HP as (_ & _ & _ & Hl & _). rewrite lg_delta_eq. lia. Qed.

Lemma lg_q_range : 4 <= lg_q <= 23.
Proof.
  pose proof lg_p_range. pose proof lg_delta_range.
  destruct HP as (_ & _ & _ & _ & Hq & _). lia.
Qed.

Lemma p_eq : p = 2 ^ lg_p.
Proof. pose proof lg_p_range. unfold p. apply u32_shiftl_1. lia. Qed.

Lemma delta_eq : delta = 2 ^ lg_delta.
Proof. pose proof lg_delta_range. unfold delta. apply u32_shiftl_1. lia. Qed.

Lemma q_eq : q = 2 ^ lg_q.
Proof. pose proof lg_q_range. unfold q. apply u32_shiftl_1. lia. Qed.

Lemma q_delta_p : q = delta * p.
Proof.
  pose proof lg_p_range. pose proof lg_delta_range.
  rewrite q_eq, delta_eq, p_eq, <- Z.pow_add_r by lia.
  destruct HP as (_ & _ & _ & _ & Hq & _). now rewrite Hq.
Qed.

Lemma p_pos : 0 < p.
Proof. pose proof lg_p_range. rewrite p_eq. apply pow2_pos. lia. Qed.

Lemma delta_pos : 0 < delta.
Proof. pose proof lg_delta_range. rewrite delta_eq. apply pow2_pos. lia. Qed.

Lemma q_pos : 0 < q.
Proof. pose proof lg_q_range. rewrite q_eq. apply pow2_pos. lia. Qed.

Lemma pow2_mask_u32 (k : Z) : 0 <= k < 32 -> u32 (2 ^ k - 1) = 2 ^ k - 1.
Proof.
  intros Hk. apply u32_small. pose proof (pow2_pos k).
  assert (2 ^ k < 2 ^ 32) by (apply Z.pow_lt_mono_r; lia). lia.
Qed.

Lemma mod_q_eq (x : Z) : mod_q x = x mod q.
Proof.
  pose proof lg_q_range. unfold mod_q.
  rewrite q_eq, pow2_mask_u32 by lia. apply land_mask. lia.
Qed.

Lemma mod_p_eq (x : Z) : mod_p x = x mod p.
Proof.
  pose proof lg_p_range. unfold mod_p.
  rewrite p_eq, pow2_mask_u32 by lia. apply land_mask. lia.
Qed.

Lemma mod_delta_eq (x : Z) : mod_delta x = x mod delta.
Proof.
  pose proof lg_delta_range. unfold mod_delta.
  rewrite delta_eq, pow2_mask_u32 by lia. apply land_mask. lia.
Qed.

Lemma shiftr_lg_delta (x : Z) : Z.shiftr x lg_delta = x / delta.
Proof.
  pose proof lg_delta_range.
  rewrite delta_eq. apply Z.shiftr_div_pow2. lia.
Qed.

(** [uint] wrap-around is invisible modulo [q], [p] and [delta]. *)
Lemma u32_mod_q (x : Z) : u32 x mod q = x mod q.
Proof. pose proof lg_q_range. rewrite q_eq. apply u32_mod_pow2. lia. Qed.

Lemma u32_mod_p (x : Z) : u32 x mod p = x mod p.
Proof. pose proof lg_p_range. rewrite p_eq. apply u32_mod_pow2. lia. Qed.

Lemma u32_mod_delta (x : Z) : u32 x mod delta = x mod delta.
Proof. pose proof lg_delta_range. rewrite delta_eq. apply u32_mod_pow2. lia. Qed.

Lemma u64_mod_delta (x : Z) : u64 x mod delta = x mod delta.
Proof. pose proof lg_delta_range. rewrite delta_eq. apply u64_mod_pow2. lia. Qed.

Lemma mod_q_mod_delta (x : Z) : (x mod q) mod delta = x mod delta.
Proof.
  pose proof lg_delta_range. pose proof lg_p_range.
  destruct HP as (_ & _ & _ & _ & Hq & _).
  rewrite q_eq, delta_eq. apply mod_pow2_inner. lia.
Qed.

(** The slot index does not wrap: it is [ctr * n + i], inside the [n * tau]
    entries that [main] allocates for [Sc], [Rs_r] and [Sc_uint]. *)
Lemma slot_eq (c : Z) (i : nat) :
  0 <= c < tau -> (Z.of_nat i < n) -> slot c i = c * n + Z.of_nat i.
Proof.
  intros Hc Hi. destruct HP as (Hn & Ht & Hnt & _).
  assert (c * n + n <= n * tau) by nia.
  assert (0 <= c * n) by nia.
  unfold slot. rewrite (u32_small (c * n)) by lia. apply u32_small. lia.
Qed.

Lemma slot_in_bounds (c : Z) (i : nat) :
  0 <= c < tau -> (Z.of_nat i < n) -> 0 <= slot c i < n * tau.
Proof.
  intros Hc Hi. rewrite slot_eq by assumption.
  destruct HP as (Hn & Ht & Hnt & _). nia.
Qed.

End Derived.

(** ** Loops that fill a vector front to back *)

Section Filled.
Context {A : Type} `{Inhabited A}.
Implicit Types (f : nat -> A) (d : A).

Lemma filled_0 f len d : filled f 0 len d = replicate len d.
Proof. unfold filled. simpl. now rewrite Nat.sub_0_r. Qed.

Lemma filled_full f len d : filled f len len d = map f (seq 0 len).
Proof. unfold filled. rewrite Nat.sub_diag. simpl. apply app_nil_r. Qed.

Lemma filled_length f m len d : (m <= len)%nat -> length (filled f m len d) = len.
Proof.
  intros Hm. unfold filled.
  rewrite length_app, length_map, length_seq, length_replicate. lia.
Qed.

Lemma filled_insert f m len d :
  (m < len)%nat -> <[m := f m]> (filled f m len d) = filled f (S m) len d.
Proof.
  intros Hm. unfold filled.
  rewrite insert_app_r_alt by (rewrite length_map, length_seq; lia).
  rewrite length_map, length_seq, Nat.sub_diag.
  replace (len - m)%nat with (S (len - S m)) by lia.
  rewrite seq_S, map_app, <- app_assoc. reflexivity.
Qed.

Lemma filled_lookup f m len d (i : nat) :
  (i < m)%nat -> filled f m len d !!! i = f i.
Proof.
  intros Hi. unfold filled.
  rewrite lookup_total_app_l by (rewrite length_map, length_seq; lia).
  apply list_lookup_total_correct.
  change (map f (seq 0 m)) with (f <$> seq 0 m).
  rewrite list_lookup_fmap, lookup_seq_lt by lia. reflexivity.
Qed.

Lemma map_seq_lookup f len (i : nat) :
  (i < len)%nat -> map f (seq 0 len) !! i = Some (f i).
Proof.
  intros Hi. change (map f (seq 0 len)) with (f <$> seq 0 len).
  rewrite list_lookup_fmap, lookup_seq_lt by lia. reflexivity.
Qed.

Lemma map_seq_lookup_total f len (i : nat) :
  (i < len)%nat -> map f (seq 0 len) !!! i = f i.
Proof. intros Hi. apply list_lookup_total_correct, map_seq_lookup, Hi. Qed.

End Filled.

(** A [uint] accumulator holds the sum of its addends modulo [2^32]. *)
Lemma accumulate_u32 {A : Type} (f : A -> Z) (l : list A) (acc : Z) :
  u32 (fold_left (fun s i => u32 (s + f i)) l acc) = u32 (acc + sumZ (map f l)).
Proof.
  revert acc. induction l as [|i l IH]; intros acc; simpl.
  - f_equal; lia.
  - rewrite IH. unfold u32. rewrite Zplus_mod_idemp_l. f_equal; lia.
Qed.

(** The same for the conditional accumulation of the sanity check. *)
Lemma accumulate_if_u32 {A : Type} (c : A -> bool) (f : A -> Z) (l : list A) (acc : Z) :
  u32 (fold_left (fun s i => if c i then u32 (s + f i) else s) l acc)
  = u32 (acc + sumZ (map (fun i => if c i then f i else 0) l)).
Proof.
  revert acc. induction l as [|i l IH]; intros acc; simpl.
  - f_equal; lia.
  - rewrite IH. destruct (c i).
    + unfold u32. rewrite Zplus_mod_idemp_l. f_equal; lia.
    + f_equal; lia.
Qed.

Lemma accumulate_in_range {A : Type} (f : A -> Z) (l : list A) :
  fold_left (fun s i => u32 (s + f i)) l 0 = u32 (sumZ (map f l)).
Proof.
  replace (sumZ (map f l)) with (0 + sumZ (map f l)) by lia.
  rewrite <- accumulate_u32. symmetry. apply u32_small.
  destruct l as [|i l _] using rev_ind; simpl; [lia|].
  rewrite fold_left_app. simpl. apply u32_range.
Qed.

Lemma sumZ_app (l1 l2 : list Z) : sumZ (l1 ++ l2) = sumZ l1 + sumZ l2.
Proof. induction l1 as [|x l1 IH]; simpl; lia. Qed.

Lemma sumZ_map_add {A : Type} (f g : A -> Z) (l : list A) :
  sumZ (map (fun i => f i + g i) l) = sumZ (map f l) + sumZ (map g l).
Proof. induction l as [|x l IH]; simpl; lia. Qed.

(** Sums of termwise congruent lists are congruent. *)
Lemma sumZ_map_mod {A : Type} (f g : A -> Z) (l : list A) (m : Z) :
  (forall i, In i l -> f i mod m = g i mod m) ->
  sumZ (map f l) mod m = sumZ (map g l) mod m.
Proof.
  induction l as [|x l IH]; intros Hfg; simpl; [reflexivity|].
  rewrite (Zplus_mod (f x)), (Zplus_mod (g x)).
  rewrite Hfg by (left; reflexivity).
  rewrite IH by (intros; apply Hfg; now right).
  reflexivity.
Qed.

(** ** What the loops of a round compute *)

Section RoundLoops.
Context {P : Params} (M : Preproc) (sk : Z -> bool) (ctr : Z) (dest : list Byte.byte).

Lemma request_loop_prefix (m : nat) :
  (m <= Z.to_nat n)%nat ->
  fold_left (request_body M sk ctr dest) (seq 0 m) request_init
  = {| a := filled (a_val dest) m (Z.to_nat n) 0;
       e_0 := filled (fun _ => 0) m (Z.to_nat n) 0;
       e_1 := filled (e_1_val M sk ctr dest) m (Z.to_nat n) 0;
       c_sum := fold_left (fun s i => u32 (s + c_val M sk ctr i)) (seq 0 m) 0 |}.
Proof.
  induction m as [|m IH]; intros Hm.
  - simpl. unfold request_init. now rewrite !filled_0.
  - rewrite seq_S, !fold_left_app, IH by lia. simpl.
    unfold request_body; cbn [a e_0 e_1 c_sum].
    rewrite !list_lookup_total_insert_eq by (rewrite filled_length; lia).
    f_equal.
    + apply (filled_insert (a_val dest)). lia.
    + apply (filled_insert (fun _ => 0)). lia.
    + apply (filled_insert (e_1_val M sk ctr dest)). lia.
Qed.

Lemma request_loop_eq :
  request_loop M sk ctr dest
  = {| a := map (a_val dest) (seq 0 (Z.to_nat n));
       e_0 := map (fun _ => 0) (seq 0 (Z.to_nat n));
       e_1 := map (e_1_val M sk ctr dest) (seq 0 (Z.to_nat n));
       c_sum := u32 (sumZ (map (c_val M sk ctr) (seq 0 (Z.to_nat n)))) |}.
Proof.
  unfold request_loop. rewrite request_loop_prefix by lia.
  now rewrite !filled_full, accumulate_in_range.
Qed.

Lemma blind_eval_loop_prefix (e0 e1 : list Z) (m : nat) :
  (m <= Z.to_nat n)%nat ->
  fold_left (blind_eval_body M sk ctr e0 e1) (seq 0 m) blind_eval_init
  = {| atil := filled (atil_val M ctr e0 e1) m (Z.to_nat n) (0, 0);
       atil_sum :=
         fold_left (fun s i => u32 (s + at2 (atil_val M ctr e0 e1 i) (sk (Z.of_nat i))))
           (seq 0 m) 0 |}.
Proof.
  induction m as [|m IH]; intros Hm.
  - simpl. unfold blind_eval_init. now rewrite filled_0.
  - rewrite seq_S, !fold_left_app, IH by lia. simpl.
    unfold blind_eval_body; cbn [atil atil_sum].
    rewrite !list_lookup_total_insert_eq by (rewrite filled_length; lia).
    f_equal. apply (filled_insert (atil_val M ctr e0 e1)). lia.
Qed.

Lemma blind_eval_loop_eq (e0 e1 : list Z) :
  blind_eval_loop M sk ctr e0 e1
  = {| atil := map (atil_val M ctr e0 e1) (seq 0 (Z.to_nat n));
       atil_sum :=
         u32 (sumZ (map (fun i => at2 (atil_val M ctr e0 e1 i) (sk (Z.of_nat i)))
                      (seq 0 (Z.to_nat n)))) |}.
Proof.
  unfold blind_eval_loop. rewrite blind_eval_loop_prefix by lia.
  now rewrite filled_full, accumulate_in_range.
Qed.

Lemma y_loop_prefix (bpr_bar atil_sum' : Z) (len m : nat) :
  (m <= len)%nat ->
  fold_left (y_body M ctr bpr_bar atil_sum') (seq 0 m) (replicate len 0)
  = filled (y_val M ctr bpr_bar atil_sum') m len 0.
Proof.
  induction m as [|m IH]; intros Hm.
  - simpl. now rewrite filled_0.
  - rewrite seq_S, fold_left_app, IH by lia. simpl.
    apply (filled_insert (y_val M ctr bpr_bar atil_sum')). lia.
Qed.

Lemma BlindEval_eq (e0 e1 : list Z) (bpr_bar : Z) :
  BlindEval M sk ctr e0 e1 bpr_bar
  = map (y_val M ctr bpr_bar (mod_q (atil_sum (blind_eval_loop M sk ctr e0 e1))))
      (seq 0 (Z.to_nat delta)).
Proof.
  unfold BlindEval. rewrite y_loop_prefix by lia. apply filled_full.
Qed.

End RoundLoops.

(** ** Lane extraction (C10) *)

Lemma at2_Sc_uint {P : Params} (M : Preproc) (k : Z) (c : bool) :
  at2 (Sc_uint M k) c = lane (at2 (Sc M k) c) 0.
Proof. destruct c; simpl; apply lane0_uint_lane. Qed.

(** C10.  Lane-0 extraction is sign-insensitive: going through the signed
    [int32_t arr[0]] and then into a [uint] (as for [Sc_uint], [Rs_r_uint],
    [Ss_uint] and [Rc_r_uint]) yields lane 0 read as an unsigned 32-bit
    integer: the signed intermediate has the same residue modulo [2^32], and
    so the values later masked with [q - 1], [delta - 1] or [p - 1] are
    those of the unsigned lane. *)
Theorem lane0_sign_insensitive {P : Params} (M : Preproc) (blk : block) (i j : Z) :
  arr blk 0 mod 2 ^ 32 = lane blk 0 /\
  lane0_uint blk = lane blk 0 /\
  mod_q (lane0_uint blk) = mod_q (lane blk 0) /\
  mod_delta (lane0_uint blk) = mod_delta (lane blk 0) /\
  mod_p (lane0_uint blk) = mod_p (lane blk 0) /\
  Sc_uint M i = (lane (Sc M i).1 0, lane (Sc M i).2 0) /\
  lane0_uint (Rs_r M i) = lane (Rs_r M i) 0 /\
  lane0_uint (Ss M i j) = lane (Ss M i j) 0 /\
  lane0_uint (Rc_r M i) = lane (Rc_r M i) 0.
Proof.
  pose proof (lane0_uint_lane blk) as Hb.
  split; [exact Hb|]. split; [exact Hb|].
  rewrite Hb. unfold Sc_uint. rewrite !lane0_uint_lane. tauto.
Qed.

(** ** Parsing of the random-oracle output (C2) *)

Lemma u8_at_range (dest : list Byte.byte) (k : nat) : 0 <= u8_at dest k < 256.
Proof.
  unfold u8_at. pose proof (Byte.to_N_bounded (nth k dest Byte.x00)). lia.
Qed.

Lemma lor_shiftl_byte (h l : Z) :
  0 <= l < 256 -> Z.lor (Z.shiftl h 8) l = 256 * h + l.
Proof.
  intros Hl. rewrite <- Z.add_nocarry_lor.
  - rewrite Z.shiftl_mul_pow2 by lia. lia.
  - apply Z.bits_inj'. intros k Hk. rewrite Z.land_spec, Z.bits_0.
    destruct (Z.lt_ge_cases k 8) as [Hlt|Hge].
    + rewrite Z.shiftl_spec_low by lia. reflexivity.
    + rewrite <- (Z.mod_small l (2 ^ 8)) by lia.
      rewrite Z.mod_pow2_bits_high by lia. apply andb_false_r.
Qed.

Lemma a_val_be16 {P : Params} (dest : list Byte.byte) (i : nat) :
  a_val dest i = mod_q (be16_at dest i).
Proof.
  pose proof (u8_at_range dest (2 * i)). pose proof (u8_at_range dest (2 * i + 1)).
  unfold a_val, be16_at. f_equal.
  rewrite u32_small by (rewrite Z.shiftl_mul_pow2; lia).
  apply lor_shiftl_byte. assumption.
Qed.

Lemma Request_a {P : Params} (M : Preproc) (sk : Z -> bool) (c : Z) (dest : list Byte.byte) :
  a (Request M sk c dest).1 = map (a_val dest) (seq 0 (Z.to_nat n)).
Proof. unfold Request. cbn [fst a]. now rewrite request_loop_eq. Qed.

(** C2, as stated, fails: with [dest[0] = 1] and [dest[1] = 0] the
    little-endian reading is [1], but the code stores [a[0] = 256]. *)
Lemma request_not_little_endian :
  let dest := Byte.x01 :: repeat Byte.x00 963 in
  a (Request (P := pool) zero_material (fun _ => false) 0 dest).1 !! 0%nat
  <> Some (mod_q (P := pool) (le16_at dest 0)).
Proof.
  intros dest. rewrite Request_a.
  rewrite (map_seq_lookup (a_val (P := pool) dest)) by (vm_compute; lia).
  vm_compute. discriminate.
Qed.

(** C2, amended.  The [2n] bytes are parsed as [n] 16-bit integers with the
    high byte first: [a[i]] is the integer whose high byte is [dest[2i]] and
    whose low byte is [dest[2i+1]], masked with [q - 1], that is reduced
    modulo [q]. *)
Theorem request_parses_big_endian {P : Params} (M : Preproc) (sk : Z -> bool)
    (c : Z) (dest : list Byte.byte) (i : nat) :
  consistent -> Z.of_nat i < n ->
  a (Request M sk c dest).1 !! i = Some (mod_q (be16_at dest i)) /\
  mod_q (be16_at dest i) = be16_at dest i mod q /\
  0 <= be16_at dest i < 2 ^ 16.
Proof.
  intros HP Hi. split; [|split].
  - rewrite Request_a, map_seq_lookup by lia. now rewrite a_val_be16.
  - now apply mod_q_eq.
  - pose proof (u8_at_range dest (2 * i)). pose proof (u8_at_range dest (2 * i + 1)).
    unfold be16_at. lia.
Qed.

Lemma pool_consistent : consistent (P := pool).
Proof. unfold consistent. vm_compute. intuition congruence. Qed.

Lemma request_parses_big_endian_witness :
  let dest := Byte.x01 :: repeat Byte.x00 963 in
  consistent (P := pool) /\ Z.of_nat 0 < n (Params := pool) /\
  a (Request (P := pool) zero_material (fun _ => false) 0 dest).1 !! 0%nat
  = Some (mod_q (P := pool) (be16_at dest 0)).
Proof.
  intros dest. split; [exact pool_consistent|]. split; [reflexivity|].
  apply (request_parses_big_endian (P := pool) zero_material (fun _ => false) 0
           dest 0 pool_consistent).
  reflexivity.
Defined.

(** ** The redundant subtraction of Finalize (C9) *)

Lemma sub_mod_div (c d : Z) : 0 < d -> (c - c mod d) / d = c / d.
Proof.
  intros Hd. rewrite (Z.div_mod c d) at 1 by lia.
  replace (d * (c / d) + c mod d - c mod d) with (c / d * d) by lia.
  apply Z.div_mul. lia.
Qed.

(** The subtraction in [temp_val] does not wrap and the shift drops what
    it clears. *)
Lemma temp_val_eq {P : Params} (c_sum' : Z) :
  consistent -> 0 <= c_sum' < 2 ^ 32 ->
  u32 (c_sum' - mod_delta c_sum') = c_sum' - c_sum' mod delta /\
  Z.shiftr (u32 (c_sum' - mod_delta c_sum')) lg_delta = Z.shiftr c_sum' lg_delta.
Proof.
  intros HP Hc. pose proof (delta_pos HP) as Hd.
  pose proof (Z.mod_pos_bound c_sum' delta Hd) as Hm.
  assert (Hle : c_sum' mod delta <= c_sum').
  { apply Z.mod_le; lia. }
  assert (Hu : u32 (c_sum' - mod_delta c_sum') = c_sum' - c_sum' mod delta).
  { rewrite (mod_delta_eq HP). apply u32_small. lia. }
  split; [exact Hu|].
  rewrite Hu, !(shiftr_lg_delta HP). now apply sub_mod_div.
Qed.

Lemma Finalize_eq {P : Params} (M : Preproc) (c c_sum' : Z) (y : list Z) :
  consistent -> 0 <= c_sum' < 2 ^ 32 ->
  Finalize M c c_sum' y
  = mod_p (u32 (u32 (y !!! Z.to_nat (mod_delta c_sum') - lane0_uint (Rc_r M c))
                - Z.shiftr c_sum' lg_delta)).
Proof.
  intros HP Hc. unfold Finalize.
  now rewrite (proj2 (temp_val_eq c_sum' HP Hc)).
Qed.

(** C9.  For every 32-bit unsigned [c_sum], the quantity Finalize subtracts,
    [(c_sum - (c_sum & (delta - 1))) >> lg_delta], is [c_sum >> lg_delta]:
    the subtraction does not wrap and only clears bits that the shift drops,
    so Finalize is unchanged when it is left out. *)
Theorem finalize_subtraction_redundant {P : Params} (M : Preproc) (c c_sum' : Z) (y : list Z) :
  consistent -> 0 <= c_sum' < 2 ^ 32 ->
  Z.shiftr (u32 (c_sum' - mod_delta c_sum')) lg_delta = Z.shiftr c_sum' lg_delta /\
  u32 (c_sum' - mod_delta c_sum') = c_sum' - c_sum' mod delta /\
  Finalize M c c_sum' y
  = mod_p (u32 (u32 (y !!! Z.to_nat (mod_delta c_sum') - lane0_uint (Rc_r M c))
                - Z.shiftr c_sum' lg_delta)).
Proof.
  intros HP Hc. destruct (temp_val_eq c_sum' HP Hc) as [Hu Hs].
  split; [exact Hs|]. split; [exact Hu|]. now apply Finalize_eq.
Qed.

Lemma finalize_subtraction_redundant_witness :
  consistent (P := pool) /\ 0 <= 4095 < 2 ^ 32 /\
  Z.shiftr (u32 (4095 - mod_delta (P := pool) 4095)) (lg_delta (P := pool))
  = Z.shiftr 4095 (lg_delta (P := pool)).
Proof.
  assert (Hc : 0 <= 4095 < 2 ^ 32) by lia.
  split; [exact pool_consistent|]. split; [exact Hc|].
  exact (proj1 (finalize_subtraction_redundant (P := pool) zero_material 0 4095 []
                  pool_consistent Hc)).
Defined.

(** ** Request (C5) *)

Section RequestFacts.
Context {P : Params} (HP : consistent).
Context (M : Preproc) (sk : Z -> bool) (c : Z) (dest : list Byte.byte).

Lemma c_val_eq (i : nat) :
  0 <= c < tau -> Z.of_nat i < n ->
  c_val M sk c i
  = (0 - lane (at2 (Sc M (c * n + Z.of_nat i)) (b_bar M sk (Z.of_nat i))) 0) mod q.
Proof.
  intros Hc Hi. unfold c_val.
  now rewrite (mod_q_eq HP), (u32_mod_q HP), at2_Sc_uint, (slot_eq HP).
Qed.

Lemma e_1_val_eq (i : nat) :
  0 <= c < tau -> Z.of_nat i < n ->
  e_1_val M sk c dest i
  = (a_val dest i + c_val M sk c i
     + lane (at2 (Sc M (c * n + Z.of_nat i)) (negb (b_bar M sk (Z.of_nat i)))) 0) mod q.
Proof.
  intros Hc Hi. unfold e_1_val.
  rewrite (mod_q_eq HP), (u32_mod_q HP), at2_Sc_uint, (slot_eq HP) by assumption.
  now rewrite <- Zplus_mod_idemp_l, (u32_mod_q HP), Zplus_mod_idemp_l.
Qed.

Lemma Request_c_sum :
  c_sum (Request M sk c dest).1 = sumZ (map (c_val M sk c) (seq 0 (Z.to_nat n))) mod q.
Proof.
  unfold Request. cbn [fst c_sum]. rewrite request_loop_eq. cbn [c_sum].
  now rewrite (mod_q_eq HP), (u32_mod_q HP).
Qed.

Lemma Request_bpr_bar :
  (Request M sk c dest).2 = (c_sum (Request M sk c dest).1 mod delta - bpr M c) mod delta.
Proof.
  unfold Request. cbn [fst snd c_sum].
  pose proof (delta_pos HP) as Hd. pose proof (lg_delta_range HP) as Hl.
  rewrite !(mod_delta_eq HP), (u64_mod_delta HP).
  apply u32_small.
  match goal with |- _ <= ?x mod _ < _ => pose proof (Z.mod_pos_bound x delta Hd) end.
  assert (delta <= 2 ^ 7).
  { rewrite (delta_eq HP). apply Z.pow_le_mono_r; lia. }
  lia.
Qed.

End RequestFacts.

(** C5.  In Request for round [ctr], for every [i < n]: [e_0[i] = 0],
    [e_1[i] = (a[i] + c_i + lane0(Sc[ctr*n+i][1 - b_bar[i]])) mod q] with
    [c_i = (e_0[i] - lane0(Sc[ctr*n+i][b_bar[i]])) mod q]; [c_sum] is the sum
    of the [c_i] modulo [q]; [bpr_bar = ((c_sum mod delta) - bpr[ctr]) mod
    delta]; and what BlindEval is handed is the triple [(e_0, e_1, bpr_bar)],
    two vectors of [n] entries and one residue. *)
Theorem request_message {P : Params} (M : Preproc) (sk : Z -> bool) (c : Z)
    (dest : list Byte.byte) :
  consistent -> 0 <= c < tau ->
  let r := Request M sk c dest in
  let S (i : nat) (bit : bool) := lane (at2 (Sc M (c * n + Z.of_nat i)) bit) 0 in
  let c_ (i : nat) := (e_0 r.1 !!! i - S i (b_bar M sk (Z.of_nat i))) mod q in
  (forall i : nat, Z.of_nat i < n ->
     e_0 r.1 !! i = Some 0 /\
     e_1 r.1 !! i
     = Some ((a r.1 !!! i + c_ i + S i (negb (b_bar M sk (Z.of_nat i)))) mod q)) /\
  c_sum r.1 = sumZ (map c_ (seq 0 (Z.to_nat n))) mod q /\
  r.2 = (c_sum r.1 mod delta - bpr M c) mod delta /\
  message r = (e_0 r.1, e_1 r.1, r.2) /\
  length (e_0 r.1) = Z.to_nat n /\ length (e_1 r.1) = Z.to_nat n.
Proof.
  intros HP Hc r S c_.
  assert (He0 : e_0 r.1 = map (fun _ => 0) (seq 0 (Z.to_nat n))).
  { unfold r, Request. cbn [fst e_0]. now rewrite request_loop_eq. }
  assert (He1 : e_1 r.1 = map (e_1_val M sk c dest) (seq 0 (Z.to_nat n))).
  { unfold r, Request. cbn [fst e_1]. now rewrite request_loop_eq. }
  assert (Hc_ : forall i : nat, Z.of_nat i < n -> c_ i = c_val M sk c i).
  { intros i Hi. unfold c_, S.
    rewrite He0, map_seq_lookup_total by lia. now rewrite (c_val_eq HP). }
  split; [|split; [|split; [|split; [|split]]]].
  - intros i Hi. split.
    + rewrite He0. apply (map_seq_lookup (fun _ => 0)). lia.
    + rewrite He1, map_seq_lookup by lia. f_equal.
      rewrite (e_1_val_eq HP) by assumption.
      unfold r. rewrite Request_a, map_seq_lookup_total by lia.
      now rewrite Hc_.
  - unfold r at 1. rewrite (Request_c_sum HP). f_equal. f_equal.
    apply map_ext_in. intros i Hi. apply in_seq in Hi.
    symmetry. apply Hc_. lia.
  - apply (Request_bpr_bar HP).
  - reflexivity.
  - now rewrite He0, length_map, length_seq.
  - now rewrite He1, length_map, length_seq.
Qed.

(** ** BlindEval (C6) *)

Section BlindEvalFacts.
Context {P : Params} (HP : consistent).
Context (M : Preproc) (sk : Z -> bool) (c : Z).

Lemma atil_val_eq (e0 e1 : list Z) (i : nat) :
  0 <= c < tau -> Z.of_nat i < n ->
  atil_val M c e0 e1 i
  = ((e0 !!! i - lane (Rs_r M (c * n + Z.of_nat i)) 0) mod q,
     (e1 !!! i - lane (Rs_r M (c * n + Z.of_nat i)) 0) mod q).
Proof.
  intros Hc Hi. unfold atil_val.
  now rewrite !(mod_q_eq HP), !(u32_mod_q HP), lane0_uint_lane, (slot_eq HP).
Qed.

Lemma y_val_eq (bpr_bar s : Z) (k : nat) :
  y_val M c bpr_bar s k
  = (((s - Z.of_nat k) mod q) / delta
     + lane (Ss M c ((Z.of_nat k - bpr_bar) mod delta)) 0) mod p.
Proof.
  unfold y_val.
  now rewrite (mod_p_eq HP), (u32_mod_p HP), (shiftr_lg_delta HP), (mod_q_eq HP),
    (u32_mod_q HP), lane0_uint_lane, (mod_delta_eq HP), (u32_mod_delta HP).
Qed.

Lemma blind_eval_atil_sum (e0 e1 : list Z) :
  mod_q (atil_sum (blind_eval_loop M sk c e0 e1))
  = sumZ (map (fun i => at2 (atil_val M c e0 e1 i) (sk (Z.of_nat i)))
            (seq 0 (Z.to_nat n))) mod q.
Proof.
  rewrite blind_eval_loop_eq. cbn [atil_sum].
  now rewrite (mod_q_eq HP), (u32_mod_q HP).
Qed.

End BlindEvalFacts.

(** C6.  In BlindEval for round [ctr], for every [i < n],
    [atil[i][0] = (e_0[i] - lane0(Rs_r[ctr*n+i])) mod q] and
    [atil[i][1] = (e_1[i] - lane0(Rs_r[ctr*n+i])) mod q]; [atil_sum] is the
    sum of the [atil[i][sk[i]]] modulo [q]; for every [k < delta],
    [y[k] = (((atil_sum - k) mod q) / delta
             + lane0(Ss[ctr][(k - bpr_bar) mod delta])) mod p],
    the division being the right shift by [lg_delta]; and the reply has
    exactly [delta] entries, each in [[0, p)]. *)
Theorem blind_eval_reply {P : Params} (M : Preproc) (sk : Z -> bool) (c : Z)
    (e0 e1 : list Z) (bpr_bar : Z) :
  consistent -> 0 <= c < tau ->
  let R (i : nat) := lane (Rs_r M (c * n + Z.of_nat i)) 0 in
  let s := blind_eval_loop M sk c e0 e1 in
  let atil_sum' := mod_q (atil_sum s) in
  let y := BlindEval M sk c e0 e1 bpr_bar in
  (forall i : nat, Z.of_nat i < n ->
     atil s !! i = Some ((e0 !!! i - R i) mod q, (e1 !!! i - R i) mod q)) /\
  atil_sum'
  = sumZ (map (fun i : nat => at2 (atil s !!! i) (sk (Z.of_nat i))) (seq 0 (Z.to_nat n)))
    mod q /\
  (forall k : nat, Z.of_nat k < delta ->
     y !! k = Some ((((atil_sum' - Z.of_nat k) mod q) / delta
                     + lane (Ss M c ((Z.of_nat k - bpr_bar) mod delta)) 0) mod p) /\
     Z.shiftr ((atil_sum' - Z.of_nat k) mod q) lg_delta
     = ((atil_sum' - Z.of_nat k) mod q) / delta) /\
  length y = Z.to_nat delta /\
  Forall (fun v => 0 <= v < p) y.
Proof.
  intros HP Hc R s atil_sum' y.
  assert (Hat : atil s = map (atil_val M c e0 e1) (seq 0 (Z.to_nat n))).
  { unfold s. now rewrite blind_eval_loop_eq. }
  assert (Hy : y = map (y_val M c bpr_bar atil_sum') (seq 0 (Z.to_nat delta))).
  { unfold y. now rewrite BlindEval_eq. }
  split; [|split; [|split; [|split]]].
  - intros i Hi. rewrite Hat, map_seq_lookup by lia.
    now rewrite (atil_val_eq HP).
  - unfold atil_sum', s. rewrite (blind_eval_atil_sum HP). f_equal. f_equal.
    apply map_ext_in. intros i Hi. apply in_seq in Hi.
    fold s. rewrite Hat, map_seq_lookup_total by lia. reflexivity.
  - intros k Hk. split.
    + rewrite Hy, map_seq_lookup by lia. now rewrite (y_val_eq HP).
    + apply (shiftr_lg_delta HP).
  - now rewrite Hy, length_map, length_seq.
  - rewrite Hy. apply Forall_forall. intros v Hv.
    apply in_map_iff in Hv. destruct Hv as (k & <- & _).
    rewrite (y_val_eq HP). apply Z.mod_pos_bound, (p_pos HP).
Qed.

(** ** Correctness of the online round (C1) *)

(** The arithmetic at the heart of Finalize: with [q = d * m], unmasking the
    looked-up entry and subtracting the high part of [C] leaves the high part
    of [A]. *)
Lemma unblind (d m C A S : Z) :
  0 < d -> 0 < m ->
  (((((C + A) mod (d * m) - C mod d) mod (d * m)) / d + S) mod m - S - C / d) mod m
  = (A / d) mod m.
Proof.
  intros Hd Hm.
  rewrite Zminus_mod_idemp_l.
  replace (C + A - C mod d) with (C / d * d + A)
    by (pose proof (Z.div_mod C d); lia).
  rewrite div_of_mod_mul, Z.div_add_l by lia.
  replace (((C / d + A / d) mod m + S) mod m - S - C / d)
    with (((C / d + A / d) mod m + S) mod m - (S + C / d)) by lia.
  rewrite Zminus_mod_idemp_l.
  replace ((C / d + A / d) mod m + S - (S + C / d))
    with ((C / d + A / d) mod m + (- (C / d))) by lia.
  rewrite Zplus_mod_idemp_l. f_equal; lia.
Qed.

Section Correctness.
Context {P : Params} (HP : consistent).
Context (M : Preproc) (sk : Z -> bool) (c : Z) (dest : list Byte.byte).
Context (Hc : 0 <= c < tau).
Context (Hphase1 : forall i : nat, Z.of_nat i < n ->
           lane (Rs_r M (c * n + Z.of_nat i)) 0
           = lane (at2 (Sc M (c * n + Z.of_nat i)) (b M (Z.of_nat i))) 0).
Context (Hphase2 : lane (Ss M c (bpr M c)) 0 = lane (Rc_r M c) 0).
Context (Hbpr : 0 <= bpr M c < delta).

Local Abbreviation idx := (seq 0 (Z.to_nat n)).
Local Abbreviation e0 := (map (fun _ : nat => 0) idx).
Local Abbreviation e1 := (map (e_1_val M sk c dest) idx).

(** The entry of [atil[i]] selected by [sk[i]] carries [c_i], plus [a[i]]
    when the key bit is set. *)
Lemma atil_select (i : nat) :
  Z.of_nat i < n ->
  at2 (atil_val M c e0 e1 i) (sk (Z.of_nat i)) mod q
  = (c_val M sk c i + (if sk (Z.of_nat i) then a_val dest i else 0)) mod q.
Proof.
  intros Hi. rewrite (atil_val_eq HP) by assumption.
  rewrite !map_seq_lookup_total by lia.
  rewrite Hphase1, (c_val_eq HP), (e_1_val_eq HP), (c_val_eq HP) by assumption.
  unfold b_bar. destruct (sk (Z.of_nat i)); cbn [at2 fst snd].
  - rewrite xorb_true_r, negb_involutive, Z.mod_mod by (pose proof (q_pos HP); lia).
    rewrite Zminus_mod_idemp_l. f_equal; lia.
  - rewrite xorb_false_r, Z.add_0_r, !Z.mod_mod by (pose proof (q_pos HP); lia).
    reflexivity.
Qed.

Lemma atil_sum_eq :
  mod_q (atil_sum (blind_eval_loop M sk c e0 e1))
  = (sumZ (map (c_val M sk c) idx) + inner_product sk (map (a_val dest) idx)) mod q.
Proof.
  rewrite (blind_eval_atil_sum HP). unfold inner_product.
  rewrite <- sumZ_map_add. apply sumZ_map_mod.
  intros i Hi. apply in_seq in Hi.
  rewrite atil_select by lia.
  now rewrite map_seq_lookup_total by lia.
Qed.

Lemma Request_fields :
  Request M sk c dest
  = ({| a := map (a_val dest) idx; e_0 := e0; e_1 := e1;
        c_sum := sumZ (map (c_val M sk c) idx) mod q |},
     ((sumZ (map (c_val M sk c) idx) mod q) mod delta - bpr M c) mod delta).
Proof.
  apply injective_projections.
  - pose proof (Request_c_sum HP M sk c dest) as Hs. revert Hs.
    unfold Request. cbn [fst snd a e_0 e_1 c_sum]. intros ->.
    now rewrite request_loop_eq.
  - rewrite (Request_bpr_bar HP), (Request_c_sum HP). reflexivity.
Qed.

Lemma online_round_z :
  (online_round M sk c dest).1 = lwr_value sk (map (a_val dest) idx).
Proof.
  pose proof (delta_pos HP) as Hd. pose proof (p_pos HP) as Hp.
  pose proof (q_pos HP) as Hq.
  unfold online_round, message. rewrite Request_fields.
  cbn [fst snd a e_0 e_1 c_sum].
  set (C := sumZ (map (c_val M sk c) idx) mod q).
  assert (HC : 0 <= C < q) by (apply Z.mod_pos_bound; lia).
  assert (Hdq : delta <= q) by (rewrite (q_delta_p HP); nia).
  assert (Hq32 : q < 2 ^ 32).
  { rewrite (q_eq HP). pose proof (lg_q_range HP).
    apply Z.pow_lt_mono_r; lia. }
  pose proof (Z.mod_pos_bound C delta Hd) as Hk.
  rewrite (Finalize_eq M c C _ HP) by lia.
  rewrite BlindEval_eq, (mod_delta_eq HP).
  rewrite map_seq_lookup_total by lia.
  rewrite (y_val_eq HP), Z2Nat.id by lia.
  rewrite Zminus_mod_idemp_r.
  replace (C mod delta - (C mod delta - bpr M c)) with (bpr M c) by lia.
  rewrite (Z.mod_small (bpr M c)) by assumption.
  rewrite Hphase2, lane0_uint_lane, atil_sum_eq.
  rewrite (mod_p_eq HP), (u32_mod_p HP), (shiftr_lg_delta HP).
  rewrite <- Zminus_mod_idemp_l, (u32_mod_p HP), Zminus_mod_idemp_l.
  replace ((sumZ (map (c_val M sk c) idx) + inner_product sk (map (a_val dest) idx)) mod q)
    with ((C + inner_product sk (map (a_val dest) idx)) mod q)
    by (unfold C; now rewrite Zplus_mod_idemp_l).
  rewrite (q_delta_p HP). unfold lwr_value.
  rewrite <- (unblind delta p C _ (lane (Rc_r M c) 0)) by assumption.
  reflexivity.
Qed.

Lemma eval_z_eq (av : list Z) : eval_z sk av = lwr_value sk av.
Proof.
  pose proof (delta_pos HP) as Hd. pose proof (p_pos HP) as Hp.
  unfold eval_z, lwr_value, inner_product.
  rewrite (mod_p_eq HP), (shiftr_lg_delta HP).
  set (acc := fold_left _ _ 0).
  assert (Hacc : acc mod q = sumZ (map (fun i : nat =>
                    if sk (Z.of_nat i) then av !!! i else 0) (seq 0 (Z.to_nat n))) mod q).
  { rewrite <- (u32_mod_q HP acc). unfold acc.
    rewrite (accumulate_if_u32 (fun i : nat => sk (Z.of_nat i)) (fun i => av !!! i)).
    now rewrite (u32_mod_q HP), Z.add_0_l. }
  rewrite <- !div_of_mod_mul, <- (q_delta_p HP), Hacc by assumption.
  reflexivity.
Qed.

End Correctness.

(** C1.  For every key [sk], every round index [ctr] in [[0, num_rounds)]
    and all preprocessing material with
    [lane0(Rs_r[ctr*n+i]) = lane0(Sc[ctr*n+i][b[i]])] for [i < n],
    [lane0(Ss[ctr][bpr[ctr]]) = lane0(Rc_r[ctr])] and [bpr[ctr]] in
    [[0, delta)] ([b_bar[i] = b[i] xor sk[i]] is how [main] computes [b_bar]),
    the [z] that the client finalizes after Request, BlindEval and Finalize is
    [(floor((sum of a[i] over the i with sk[i] = 1) / delta)) mod p], the sum
    being taken over the integers and [a] being the vector Request parsed
    from the random-oracle output; it is also the value of the reference
    evaluator, so the sanity assertion holds. *)
Theorem oprf_correct {P : Params} (M : Preproc) (sk : Z -> bool) (c : Z)
    (dest : list Byte.byte) :
  consistent ->
  0 <= c < num_rounds ->
  (forall i : nat, Z.of_nat i < n ->
     lane (Rs_r M (c * n + Z.of_nat i)) 0
     = lane (at2 (Sc M (c * n + Z.of_nat i)) (b M (Z.of_nat i))) 0) ->
  lane (Ss M c (bpr M c)) 0 = lane (Rc_r M c) 0 ->
  0 <= bpr M c < delta ->
  let r := Request M sk c dest in
  let y := BlindEval M sk c (e_0 r.1) (e_1 r.1) r.2 in
  let z := Finalize M c (c_sum r.1) y in
  z = (inner_product sk (a r.1) / delta) mod p /\
  online_round M sk c dest = (z, z) /\
  (forall i : nat, Z.of_nat i < n -> a r.1 !! i = Some (be16_at dest i mod q)).
Proof.
  intros HP Hc H1 H2 Hb r y z.
  assert (Hct : 0 <= c < tau) by (destruct HP as (_ & _ & _ & _ & _ & ?); lia).
  pose proof (online_round_z HP M sk c dest Hct H1 H2 Hb) as Hz.
  assert (Ha : a r.1 = map (a_val dest) (seq 0 (Z.to_nat n))) by apply Request_a.
  assert (Hz' : z = lwr_value sk (a r.1)) by (rewrite Ha; exact Hz).
  split; [exact Hz'|]. split.
  - unfold online_round, message. fold r. cbn zeta. fold y. fold z.
    f_equal. rewrite (eval_z_eq HP). symmetry. exact Hz'.
  - intros i Hi. rewrite Ha, map_seq_lookup by lia.
    now rewrite a_val_be16, (mod_q_eq HP).
Qed.

(** *** The concrete session *)

Example sample_round :
  online_round (P := pool) sample_material sample_key 3 sample_dest = (228, 228).
Proof. vm_compute. reflexivity. Qed.

Lemma sample_phase_one (c : Z) (i : nat) :
  Z.of_nat i < 482 ->
  lane (Rs_r sample_material (c * 482 + Z.of_nat i)) 0
  = lane (at2 (Sc sample_material (c * 482 + Z.of_nat i))
            (b sample_material (Z.of_nat i))) 0.
Proof.
  intros Hi. cbn [Rs_r Sc b sample_material].
  rewrite Z.add_comm, Z_mod_plus_full. reflexivity.
Qed.

(** [sample_material] is OT-correct in every slot. *)
Lemma sample_material_correct (c : Z) :
  (forall i : nat, Z.of_nat i < n (Params := pool) ->
     lane (Rs_r sample_material (c * n (Params := pool) + Z.of_nat i)) 0
     = lane (at2 (Sc sample_material (c * n (Params := pool) + Z.of_nat i))
               (b sample_material (Z.of_nat i))) 0) /\
  lane (Ss sample_material c (bpr sample_material c)) 0 = lane (Rc_r sample_material c) 0 /\
  0 <= bpr sample_material c < delta (P := pool).
Proof.
  split; [exact (sample_phase_one c)|]. split; [reflexivity|].
  change (delta (P := pool)) with 16. cbn [bpr sample_material].
  apply Z.mod_pos_bound. lia.
Qed.

Lemma oprf_correct_witness :
  consistent (P := pool) /\ 0 <= 3 < num_rounds (Params := pool) /\
  let r := Request (P := pool) sample_material sample_key 3 sample_dest in
  let y := BlindEval (P := pool) sample_material sample_key 3 (e_0 r.1) (e_1 r.1) r.2 in
  let z := Finalize (P := pool) sample_material 3 (c_sum r.1) y in
  z = (inner_product (P := pool) sample_key (a r.1) / delta (P := pool))
      mod p (P := pool).
Proof.
  assert (Hc : 0 <= 3 < num_rounds (Params := pool)) by (vm_compute; intuition congruence).
  assert (Hb : 0 <= bpr sample_material 3 < delta (P := pool))
    by (vm_compute; intuition congruence).
  split; [exact pool_consistent|]. split; [exact Hc|].
  exact (proj1 (oprf_correct (P := pool) sample_material sample_key 3 sample_dest
                  pool_consistent Hc (sample_phase_one 3) eq_refl Hb)).
Defined.

(** ** Tiling of the phase-one choice bits (C7) *)

Section Tiling.
Context {P : Params} (HP : consistent).
Context (b_n : Z -> bool).

Lemma tile_index (j i : nat) :
  Z.of_nat j < tau -> Z.of_nat i < n ->
  u32 (u32 (Z.of_nat j * n) + Z.of_nat i) = Z.of_nat j * n + Z.of_nat i.
Proof. intros Hj Hi. apply (slot_eq HP (Z.of_nat j) i); lia. Qed.

(** After [m] iterations of the inner loop, row [j] holds the first [m] bits
    of [b_n] and the rest of the vector is untouched. *)
Lemma tile_row_prefix (bv : Z -> bool) (j m : nat) (k : Z) :
  Z.of_nat j < tau -> (m <= Z.to_nat n)%nat ->
  fold_left
    (fun bv' (i : nat) => <[u32 (u32 (Z.of_nat j * n) + Z.of_nat i) := b_n (Z.of_nat i)]> bv')
    (seq 0 m) bv k
  = if decide (Z.of_nat j * n <= k < Z.of_nat j * n + Z.of_nat m)
    then b_n (k - Z.of_nat j * n) else bv k.
Proof.
  intros Hj. induction m as [|m IH]; intros Hm.
  - simpl. case_decide; [lia|reflexivity].
  - rewrite seq_S, fold_left_app. simpl.
    rewrite tile_index by lia.
    destruct (decide (Z.of_nat j * n + Z.of_nat m = k)) as [<-|Hne].
    + clear IH. rewrite fn_lookup_insert. case_decide; [f_equal; lia|lia].
    + rewrite fn_lookup_insert_ne, IH by (assumption || lia). clear IH.
      repeat case_decide; try reflexivity; lia.
Qed.

Lemma tile_row_spec (bv : Z -> bool) (j : nat) (k : Z) :
  Z.of_nat j < tau ->
  tile_row b_n bv j k
  = if decide (Z.of_nat j * n <= k < Z.of_nat j * n + n)
    then b_n (k - Z.of_nat j * n) else bv k.
Proof.
  intros Hj. unfold tile_row. rewrite tile_row_prefix by lia.
  destruct HP as (Hn & _). rewrite Z2Nat.id by lia. reflexivity.
Qed.

(** After [t] iterations of the outer loop, the first [t] rows are tiled. *)
Lemma tile_prefix (bv : Z -> bool) (t : nat) (k : Z) :
  (t <= Z.to_nat tau)%nat ->
  fold_left (tile_row b_n) (seq 0 t) bv k
  = if decide (0 <= k < Z.of_nat t * n) then b_n (k mod n) else bv k.
Proof.
  destruct HP as (Hn & Ht & _).
  induction t as [|t IH]; intros Hle.
  - simpl. case_decide; [lia|reflexivity].
  - rewrite seq_S, fold_left_app. simpl.
    rewrite tile_row_spec, IH by lia. clear IH.
    repeat case_decide; try reflexivity; try nia.
    f_equal. symmetry.
    replace k with ((k - Z.of_nat t * n) + Z.of_nat t * n) at 1 by lia.
    rewrite Z_mod_plus_full. apply Z.mod_small. lia.
Qed.

Lemma tile_spec (bv : Z -> bool) (k : Z) :
  0 <= k < n * tau -> phase_one_iknp_receive b_n bv k = b_n (k mod n).
Proof.
  intros Hk. destruct HP as (Hn & Ht & _).
  unfold phase_one_iknp_receive. rewrite tile_prefix by lia.
  rewrite Z2Nat.id by lia. case_decide; [reflexivity|lia].
Qed.

End Tiling.

(** C7.  After the tiling loops of the phase-one receiver, the choice vector
    repeats the freshly sampled pattern [b_n] in each of its [tau] rows:
    [b[j*n + i] = b_n[i]] for all [j < tau] and [i < n], and therefore
    [b[j*n + i] = b[i]]. *)
Theorem phase_one_choice_bits_tiled {P : Params} (b_n bv : Z -> bool) (j i : Z) :
  consistent -> 0 <= j < tau -> 0 <= i < n ->
  phase_one_iknp_receive b_n bv (j * n + i) = b_n i /\
  phase_one_iknp_receive b_n bv (j * n + i) = phase_one_iknp_receive b_n bv i.
Proof.
  intros HP Hj Hi.
  assert (Hn : 0 <= n) by (destruct HP as (? & _); assumption).
  assert (Hji : 0 <= j * n + i < n * tau) by nia.
  assert (Hi' : 0 <= i < n * tau) by nia.
  rewrite !(tile_spec HP) by assumption.
  rewrite Z.add_comm, Z_mod_plus_full, Z.mod_small by lia.
  split; reflexivity.
Qed.

Lemma phase_one_choice_bits_tiled_witness :
  consistent (P := pool) /\ 0 <= 65535 < tau (Params := pool) /\
  0 <= 481 < n (Params := pool) /\
  phase_one_iknp_receive (P := pool) sample_choice (fun _ => false) (65535 * n (Params := pool) + 481)
  = sample_choice 481.
Proof.
  assert (Hj : 0 <= 65535 < tau (Params := pool)) by (vm_compute; intuition congruence).
  assert (Hi : 0 <= 481 < n (Params := pool)) by (vm_compute; intuition congruence).
  split; [exact pool_consistent|].
  split; [exact Hj|].
  split; [exact Hi|].
  exact (proj1 (phase_one_choice_bits_tiled (P := pool) sample_choice (fun _ => false)
                  65535 481 pool_consistent Hj Hi)).
Defined.

(** ** The 32-bit accumulators (C8) *)

Lemma sumZ_map_bound {A : Type} (f : A -> Z) (l : list A) (B : Z) :
  (forall i, 0 <= f i <= B) -> 0 <= sumZ (map f l) <= Z.of_nat (length l) * B.
Proof.
  intros Hf. induction l as [|x l IH]; [simpl; lia|].
  pose proof (Hf x). change (sumZ (map f (x :: l))) with (f x + sumZ (map f l)).
  rewrite length_cons, Nat2Z.inj_succ. lia.
Qed.

Section Accumulators.
Context {P : Params} (HP : consistent) (Hroom : n * (q - 1) < 2 ^ 32).
Context (M : Preproc) (sk : Z -> bool) (c : Z) (dest : list Byte.byte) (e0 e1 : list Z).

Lemma mod_q_range (x : Z) : 0 <= mod_q x <= q - 1.
Proof.
  rewrite (mod_q_eq HP). pose proof (Z.mod_pos_bound x q (q_pos HP)). lia.
Qed.

Lemma c_val_range (i : nat) : 0 <= c_val M sk c i <= q - 1.
Proof. apply mod_q_range. Qed.

Lemma atil_selected_range (i : nat) :
  0 <= at2 (atil_val M c e0 e1 i) (sk (Z.of_nat i)) <= q - 1.
Proof. unfold atil_val. destruct (sk (Z.of_nat i)); apply mod_q_range. Qed.

Lemma sum_reducing_each_step_from (l : list Z) (acc : Z) :
  0 <= acc < q ->
  fold_left (fun s x => mod_q (s + x)) l acc = (acc + sumZ l) mod q.
Proof.
  revert acc. induction l as [|x l IH]; intros acc Hacc; cbn [fold_left].
  - change (sumZ []) with 0. rewrite Z.add_0_r. symmetry. apply Z.mod_small, Hacc.
  - change (sumZ (x :: l)) with (x + sumZ l).
    rewrite IH by (pose proof (mod_q_range (acc + x)); lia).
    rewrite (mod_q_eq HP), Zplus_mod_idemp_l. f_equal; lia.
Qed.

Lemma sum_reducing_each_step_eq (l : list Z) :
  sum_reducing_each_step l = sumZ l mod q.
Proof.
  unfold sum_reducing_each_step.
  rewrite sum_reducing_each_step_from by (pose proof (q_pos HP); lia).
  reflexivity.
Qed.

(** A sum of at most [n] addends below [q] fits the accumulator. *)
Lemma addends_fit {A : Type} (f : A -> Z) (l : list A) :
  (forall i, 0 <= f i <= q - 1) -> (length l <= Z.to_nat n)%nat ->
  0 <= sumZ (map f l) <= n * (q - 1) /\
  fold_left (fun s i => u32 (s + f i)) l 0 = sumZ (map f l).
Proof.
  intros Hf Hlen. pose proof (sumZ_map_bound f l (q - 1) Hf) as Hs.
  pose proof (q_pos HP) as Hq.
  assert (Hl : Z.of_nat (length l) <= n) by (destruct HP as (? & _); lia).
  assert (Hb : sumZ (map f l) <= n * (q - 1)).
  { apply Z.le_trans with (Z.of_nat (length l) * (q - 1)); [lia|].
    apply Z.mul_le_mono_nonneg_r; lia. }
  split; [lia|]. rewrite accumulate_in_range. apply u32_small. lia.
Qed.

Lemma take_indices (m : nat) :
  take m (seq 0 (Z.to_nat n)) = seq 0 (m `min` Z.to_nat n) /\
  (length (take m (seq 0 (Z.to_nat n))) <= Z.to_nat n)%nat.
Proof. split; [apply take_seq|]. rewrite length_take, length_seq. lia. Qed.

Lemma request_accumulator_exact (m : nat) :
  let prefix := take m (seq 0 (Z.to_nat n)) in
  c_sum (fold_left (request_body M sk c dest) prefix request_init)
  = sumZ (map (c_val M sk c) prefix) /\
  0 <= sumZ (map (c_val M sk c) prefix) <= n * (q - 1).
Proof.
  intros prefix. destruct (take_indices m) as [Hp Hlen]. fold prefix in Hp, Hlen.
  destruct (addends_fit (c_val M sk c) prefix c_val_range Hlen) as [Hs Hf].
  split; [|exact Hs].
  rewrite <- Hf, Hp, request_loop_prefix by lia. reflexivity.
Qed.

Lemma blind_eval_accumulator_exact (m : nat) :
  let prefix := take m (seq 0 (Z.to_nat n)) in
  let ts := map (fun i : nat => at2 (atil_val M c e0 e1 i) (sk (Z.of_nat i))) prefix in
  atil_sum (fold_left (blind_eval_body M sk c e0 e1) prefix blind_eval_init) = sumZ ts /\
  0 <= sumZ ts <= n * (q - 1).
Proof.
  intros prefix ts. destruct (take_indices m) as [Hp Hlen]. fold prefix in Hp, Hlen.
  destruct (addends_fit (fun i : nat => at2 (atil_val M c e0 e1 i) (sk (Z.of_nat i)))
              prefix atil_selected_range Hlen) as [Hs Hf].
  split; [|exact Hs].
  unfold ts. rewrite <- Hf, Hp, blind_eval_loop_prefix by lia. reflexivity.
Qed.

Lemma request_mask_once :
  mod_q (c_sum (request_loop M sk c dest))
  = sum_reducing_each_step (map (c_val M sk c) (seq 0 (Z.to_nat n))).
Proof.
  rewrite sum_reducing_each_step_eq, request_loop_eq. cbn [c_sum].
  now rewrite (mod_q_eq HP), (u32_mod_q HP).
Qed.

Lemma blind_eval_mask_once :
  mod_q (atil_sum (blind_eval_loop M sk c e0 e1))
  = sum_reducing_each_step
      (map (fun i : nat => at2 (atil_val M c e0 e1 i) (sk (Z.of_nat i)))
         (seq 0 (Z.to_nat n))).
Proof. rewrite sum_reducing_each_step_eq. apply (blind_eval_atil_sum HP). Qed.

End Accumulators.

Section Shipped.
#[local] Existing Instance pool.

(** C8.  With the shipped [n = 482] and [q = 2^12] neither accumulator ever
    overflows: [n * (q - 1) < 2^21 < 2^32], the addends are below [q], and
    after any number [m] of loop iterations [c_sum] and [atil_sum] hold the
    exact integer sum of the addends seen so far, at most [n * (q - 1)].
    Masking once after the loop therefore gives what reducing after every
    addition would. *)
Theorem accumulators_do_not_overflow (M : Preproc) (sk : Z -> bool) (c : Z)
    (dest : list Byte.byte) (e0 e1 : list Z) (m : nat) :
  n = 482 /\ q = 2 ^ 12 /\ n * (q - 1) < 2 ^ 21 /\ 2 ^ 21 < 2 ^ 32 /\
  let prefix := take m (seq 0 (Z.to_nat n)) in
  let cs := map (c_val M sk c) prefix in
  let ts := map (fun i : nat => at2 (atil_val M c e0 e1 i) (sk (Z.of_nat i))) prefix in
  Forall (fun x => 0 <= x < q) cs /\
  c_sum (fold_left (request_body M sk c dest) prefix request_init) = sumZ cs /\
  0 <= sumZ cs <= n * (q - 1) /\
  Forall (fun x => 0 <= x < q) ts /\
  atil_sum (fold_left (blind_eval_body M sk c e0 e1) prefix blind_eval_init) = sumZ ts /\
  0 <= sumZ ts <= n * (q - 1) /\
  mod_q (c_sum (request_loop M sk c dest))
  = sum_reducing_each_step (map (c_val M sk c) (seq 0 (Z.to_nat n))) /\
  mod_q (atil_sum (blind_eval_loop M sk c e0 e1))
  = sum_reducing_each_step
      (map (fun i : nat => at2 (atil_val M c e0 e1 i) (sk (Z.of_nat i)))
         (seq 0 (Z.to_nat n))).
Proof.
  assert (Hroom : n * (q - 1) < 2 ^ 32) by (vm_compute; reflexivity).
  split; [reflexivity|]. split; [reflexivity|].
  split; [vm_compute; reflexivity|]. split; [vm_compute; reflexivity|].
  intros prefix cs ts.
  destruct (request_accumulator_exact pool_consistent Hroom M sk c dest m) as [Hc1 Hc2].
  destruct (blind_eval_accumulator_exact pool_consistent Hroom M sk c e0 e1 m) as [Ht1 Ht2].
  split; [|split; [exact Hc1|split; [exact Hc2|split; [|split; [exact Ht1|split; [exact Ht2|split]]]]]].
  - apply Forall_forall. intros x Hx. apply in_map_iff in Hx. destruct Hx as (i & <- & _).
    pose proof (c_val_range pool_consistent M sk c i). lia.
  - apply Forall_forall. intros x Hx. apply in_map_iff in Hx. destruct Hx as (i & <- & _).
    pose proof (atil_selected_range pool_consistent M sk c e0 e1 i). lia.
  - apply (request_mask_once pool_consistent).
  - apply (blind_eval_mask_once pool_consistent).
Qed.

End Shipped.

(** ** The round counter (C4) *)

Lemma loop_from_head {P : Params} (E : Env) (M : Preproc) (sk : Z -> bool)
    (k : nat) (s : loop_state) :
  (loop_from E M sk k s).1 !! 0%nat = Some s.
Proof.
  destruct k as [|k]; [reflexivity|]. cbn [loop_from].
  destruct (loop_body E M sk s) as [s' ok]. destruct ok; [|reflexivity].
  destruct (loop_from E M sk k (advance s')) as [tr o]. reflexivity.
Qed.

Section Loop.
Context {P : Params} (E : Env) (M : Preproc) (sk : Z -> bool).

Lemma loop_body_state (s : loop_state) :
  round (loop_body E M sk s).1 = round s /\
  ctr (loop_body E M sk s).1 = ctr s /\
  length (printed (loop_body E M sk s).1) = S (length (printed s)).
Proof.
  unfold loop_body. destruct (seeds E _) as [t x].
  destruct (online_round _ _ _ _) as [z ez]. cbn [fst round ctr printed].
  rewrite length_app. simpl. repeat split; lia.
Qed.

Lemma offsets_cons (c : Z) (len : nat) :
  map (fun j : nat => c + Z.of_nat j) (seq 0 (S len))
  = c :: map (fun j : nat => c + 1 + Z.of_nat j) (seq 0 len).
Proof.
  cbn [seq map]. f_equal; [lia|].
  rewrite <- seq_shift, map_map. apply map_ext. intros j. lia.
Qed.

(** The counter along [k] iterations started in state [s]: the visited
    states count up from [ctr s] one by one, [ctr] and [round] agree, and the
    loop stops at [ctr s + k] or, on a failed assertion, before. *)
Lemma loop_from_counter (k : nat) (s : loop_state) :
  ctr s = round s -> 0 <= ctr s -> ctr s + Z.of_nat k < 2 ^ 32 ->
  let r := loop_from E M sk k s in
  map ctr r.1 = map (fun j : nat => ctr s + Z.of_nat j) (seq 0 (length r.1)) /\
  Forall (fun s' => ctr s' = round s' /\ ctr s <= ctr s' <= ctr s + Z.of_nat k) r.1 /\
  (1 <= length r.1 <= S k)%nat /\
  ctr (final_state r.2) = ctr s + Z.of_nat (length r.1) - 1 /\
  match r.2 with
  | Completed sf => ctr sf = ctr s + Z.of_nat k
  | AssertFailed sf => ctr sf < ctr s + Z.of_nat k
  end.
Proof.
  revert s. induction k as [|k IH]; intros s Hr H0 Hk.
  - cbn. repeat split; try lia.
    + f_equal; lia.
    + repeat constructor; lia.
  - cbn [loop_from]. destruct (loop_body_state s) as (Hbr & Hbc & _).
    destruct (loop_body E M sk s) as [s' ok]. cbn [fst] in Hbr, Hbc.
    destruct ok.
    + assert (Hadv : ctr (advance s') = ctr s + 1).
      { unfold advance. cbn [ctr]. rewrite Hbc. apply u32_small. lia. }
      assert (Hadr : round (advance s') = round s + 1).
      { unfold advance. cbn [round]. now rewrite Hbr. }
      specialize (IH (advance s')). rewrite Hadv, Hadr in IH.
      specialize (IH ltac:(lia) ltac:(lia) ltac:(lia)).
      destruct (loop_from E M sk k (advance s')) as [tr o].
      cbn [fst snd] in *. destruct IH as (Hm & Hf & Hl & Hfin & Ho).
      cbn [length]. rewrite offsets_cons. cbn [map].
      repeat split; try lia.
      * now rewrite Hm.
      * constructor; [lia|]. eapply Forall_impl; [|exact Hf].
        cbn beta. intros s1 Hs1. lia.
      * destruct o; lia.
    + cbn. repeat split; try lia.
      * f_equal; lia.
      * repeat constructor; lia.
Qed.

(** [ctr] and [round] still agree in the state the loop stops in. *)
Lemma loop_from_final_round (k : nat) (s : loop_state) :
  ctr s = round s -> 0 <= ctr s -> ctr s + Z.of_nat k < 2 ^ 32 ->
  ctr (final_state (loop_from E M sk k s).2) = round (final_state (loop_from E M sk k s).2).
Proof.
  revert s. induction k as [|k IH]; intros s Hr H0 Hk; [exact Hr|].
  cbn [loop_from]. destruct (loop_body_state s) as (Hbr & Hbc & _).
  destruct (loop_body E M sk s) as [s' ok]. cbn [fst] in Hbr, Hbc.
  destruct ok.
  - assert (Hadv : ctr (advance s') = ctr s + 1).
    { unfold advance. cbn [ctr]. rewrite Hbc. apply u32_small. lia. }
    assert (Hadr : round (advance s') = round s + 1).
    { unfold advance. cbn [round]. now rewrite Hbr. }
    specialize (IH (advance s') ltac:(lia) ltac:(lia) ltac:(lia)).
    destruct (loop_from E M sk k (advance s')) as [tr o]. exact IH.
  - cbn. lia.
Qed.

(** Two successive loop heads: the round between them passed its assertion,
    left [ctr] alone until its last statement, and ended with [ctr++]. *)
Lemma loop_from_step (k : nat) (s : loop_state) (j : nat) (sj sj' : loop_state) :
  (loop_from E M sk k s).1 !! j = Some sj ->
  (loop_from E M sk k s).1 !! S j = Some sj' ->
  (loop_body E M sk sj).2 = true /\ sj' = advance (loop_body E M sk sj).1.
Proof.
  revert s j. induction k as [|k IH]; intros s j Hj Hj'; [discriminate Hj'|].
  cbn [loop_from] in Hj, Hj'.
  destruct (loop_body E M sk s) as [s1 ok] eqn:Hb.
  destruct ok; [|discriminate Hj'].
  pose proof (loop_from_head E M sk k (advance s1)) as Hh.
  destruct (loop_from E M sk k (advance s1)) as [tr o] eqn:Hl. cbn [fst] in *.
  destruct j as [|j].
  - assert (Hs : Some s = Some sj) by exact Hj.
    assert (Hs' : tr !! 0%nat = Some sj') by exact Hj'.
    injection Hs as <-. rewrite Hb. cbn [fst snd].
    split; [reflexivity|]. rewrite Hh in Hs'. now injection Hs' as <-.
  - apply (IH (advance s1) j); rewrite Hl; [exact Hj|exact Hj'].
Qed.

End Loop.

(** The counter of the online phase, for any number of rounds that a
    [uint] can hold. *)
Lemma online_phase_counter {P : Params} (E : Env) (M : Preproc) (sk : Z -> bool) :
  0 <= num_rounds < 2 ^ 32 ->
  let r := online_phase E M sk in
  r.1 !! 0%nat = Some init_state /\ ctr init_state = 0 /\
  map ctr r.1 = map Z.of_nat (seq 0 (length r.1)) /\
  Forall (fun s => 0 <= ctr s <= num_rounds /\ ctr s = round s) r.1 /\
  ctr (final_state r.2) = Z.of_nat (length r.1) - 1 /\
  0 <= ctr (final_state r.2) <= num_rounds /\
  match r.2 with
  | Completed sf => ctr sf = num_rounds
  | AssertFailed sf => ctr sf < num_rounds
  end.
Proof.
  intros Hn r.
  pose proof (loop_from_counter E M sk (Z.to_nat num_rounds) init_state) as H.
  fold (online_phase E M sk) in H. fold r in H.
  rewrite Z2Nat.id in H by lia. cbn [ctr round init_state] in H.
  destruct H as (Hm & Hf & Hl & Hfin & Ho); [reflexivity|lia|lia|].
  split; [exact (loop_from_head E M sk (Z.to_nat num_rounds) init_state)|].
  split; [reflexivity|].
  split; [rewrite Hm; apply map_ext; intros j; lia|].
  split.
  { eapply Forall_impl; [|exact Hf]. cbn beta. intros s Hs. lia. }
  split; [lia|]. split; [lia|].
  destruct r.2; lia.
Qed.

(** The loop runs to its end when the preprocessing of every slot it uses
    is OT-correct, and then it has printed [num_rounds] values. *)
Lemma loop_from_completes {P : Params} (HP : consistent) (E : Env) (M : Preproc)
    (sk : Z -> bool) (k : nat) (s : loop_state) :
  (forall c, 0 <= c < num_rounds ->
     (forall i : nat, Z.of_nat i < n ->
        lane (Rs_r M (c * n + Z.of_nat i)) 0
        = lane (at2 (Sc M (c * n + Z.of_nat i)) (b M (Z.of_nat i))) 0) /\
     lane (Ss M c (bpr M c)) 0 = lane (Rc_r M c) 0 /\
     0 <= bpr M c < delta) ->
  0 <= ctr s -> ctr s + Z.of_nat k <= num_rounds ->
  exists sf, (loop_from E M sk k s).2 = Completed sf /\
             ctr sf = ctr s + Z.of_nat k /\
             length (printed sf) = (length (printed s) + k)%nat.
Proof.
  intros HOT. revert s. induction k as [|k IH]; intros s H0 Hk.
  - exists s. cbn. repeat split; lia.
  - assert (Hnt : num_rounds <= tau) by (destruct HP as (_ & _ & _ & _ & _ & ?); lia).
    destruct (HOT (ctr s)) as (H1 & H2 & H3); [lia|].
    pose proof (online_round_z HP M sk (ctr s)) as Hz.
    cbn [loop_from]. unfold loop_body.
    destruct (seeds E _) as [t x].
    specialize (Hz (RandomOracle E (2 * n * 1) t x) ltac:(lia) H1 H2 H3).
    destruct (online_round M sk (ctr s) (RandomOracle E (2 * n * 1) t x)) as [z ez] eqn:Hround.
    assert (Hez : ez = z).
    { cbn [fst] in Hz. rewrite Hz.
      apply (f_equal snd) in Hround. cbn [snd] in Hround. rewrite <- Hround.
      unfold online_round, message. cbn [snd].
      rewrite (eval_z_eq HP), Request_a. reflexivity. }
    rewrite Hez, Z.eqb_refl.
    set (s1 := advance _).
    assert (Hc1 : ctr s1 = ctr s + 1).
    { unfold s1, advance. cbn [ctr]. apply u32_small.
      destruct HP as (_ & Ht & _). lia. }
    destruct (IH s1) as (sf & Hsf & Hcf & Hpf); [lia|lia|].
    destruct (loop_from E M sk k s1) as [tr o]. cbn [snd] in Hsf |- *.
    exists sf. split; [exact Hsf|]. split; [lia|].
    rewrite Hpf. unfold s1, advance. cbn [printed]. rewrite length_app. simpl. lia.
Qed.

Theorem online_phase_completes {P : Params} (E : Env) (M : Preproc) (sk : Z -> bool) :
  consistent ->
  (forall c, 0 <= c < num_rounds ->
     (forall i : nat, Z.of_nat i < n ->
        lane (Rs_r M (c * n + Z.of_nat i)) 0
        = lane (at2 (Sc M (c * n + Z.of_nat i)) (b M (Z.of_nat i))) 0) /\
     lane (Ss M c (bpr M c)) 0 = lane (Rc_r M c) 0 /\
     0 <= bpr M c < delta) ->
  exists sf, (online_phase E M sk).2 = Completed sf /\
             ctr sf = num_rounds /\
             Z.of_nat (length (printed sf)) = num_rounds.
Proof.
  intros HP HOT.
  assert (Hn : 0 <= num_rounds) by (destruct HP as (_ & _ & _ & _ & _ & ?); lia).
  destruct (loop_from_completes HP E M sk (Z.to_nat num_rounds) init_state HOT)
    as (sf & Hsf & Hc & Hp); cbn [ctr init_state]; [lia|lia|].
  exists sf. split; [exact Hsf|].
  cbn [ctr printed init_state length] in Hc, Hp. split; lia.
Qed.

(** C4.  In a consistent configuration [0 <= ctr <= num_rounds <= tau] holds
    in every state of the online loop.  [ctr] starts at 0; the states at the
    successive loop heads carry [ctr = 0, 1, 2, ...], always equal to [round];
    between two successive heads lies a round whose assertion held, which
    left [ctr] alone until its last statement and then incremented it once.
    A loop that runs to its end stops with [ctr = num_rounds], a failed
    assertion stops the process with [ctr < num_rounds].  When the
    preprocessing of the slots below [num_rounds] is OT-correct, every round
    completes: the loop passes [num_rounds + 1] loop heads, prints [num_rounds]
    values and ends with [ctr = round = num_rounds]. *)
Theorem round_counter {P : Params} (E : Env) (M : Preproc) (sk : Z -> bool) :
  consistent ->
  let r := online_phase E M sk in
  0 <= num_rounds <= tau /\
  r.1 !! 0%nat = Some init_state /\ ctr init_state = 0 /\
  map ctr r.1 = map Z.of_nat (seq 0 (length r.1)) /\
  Forall (fun s => 0 <= ctr s <= num_rounds /\ ctr s = round s) r.1 /\
  ctr (final_state r.2) = Z.of_nat (length r.1) - 1 /\
  0 <= ctr (final_state r.2) <= num_rounds /\
  match r.2 with
  | Completed sf => ctr sf = num_rounds
  | AssertFailed sf => ctr sf < num_rounds
  end /\
  (forall (j : nat) (s s' : loop_state),
     r.1 !! j = Some s -> r.1 !! S j = Some s' ->
     (loop_body E M sk s).2 = true /\
     ctr (loop_body E M sk s).1 = ctr s /\
     s' = advance (loop_body E M sk s).1 /\
     ctr s' = ctr s + 1) /\
  ((forall c, 0 <= c < num_rounds ->
      (forall i : nat, Z.of_nat i < n ->
         lane (Rs_r M (c * n + Z.of_nat i)) 0
         = lane (at2 (Sc M (c * n + Z.of_nat i)) (b M (Z.of_nat i))) 0) /\
      lane (Ss M c (bpr M c)) 0 = lane (Rc_r M c) 0 /\
      0 <= bpr M c < delta) ->
   exists sf, r.2 = Completed sf /\
     ctr sf = num_rounds /\ round sf = num_rounds /\
     Z.of_nat (length (printed sf)) = num_rounds /\
     length r.1 = S (Z.to_nat num_rounds)).
Proof.
  intros HP r.
  assert (Ht : 0 <= num_rounds <= tau) by (destruct HP as (_ & _ & _ & _ & _ & ?); lia).
  assert (Hn : 0 <= num_rounds < 2 ^ 32) by (destruct HP as (_ & ? & _); lia).
  destruct (online_phase_counter E M sk Hn) as (H0 & Hi & Hm & Hf & Hl & Hr & Ho).
  fold r in H0, Hm, Hf, Hl, Hr, Ho.
  split; [exact Ht|]. split; [exact H0|]. split; [exact Hi|]. split; [exact Hm|].
  split; [exact Hf|]. split; [exact Hl|]. split; [exact Hr|]. split; [exact Ho|].
  split.
  - intros j s s' Hj Hj'.
    destruct (loop_from_step E M sk (Z.to_nat num_rounds) init_state j s s' Hj Hj')
      as (Hok & Hs').
    destruct (loop_body_state E M sk s) as (_ & Hbc & _).
    split; [exact Hok|]. split; [exact Hbc|]. split; [exact Hs'|].
    assert (Hcs : map ctr r.1 !! j = Some (ctr s)) by (rewrite list_lookup_fmap, Hj; reflexivity).
    assert (Hcs' : map ctr r.1 !! S j = Some (ctr s'))
      by (rewrite list_lookup_fmap, Hj'; reflexivity).
    rewrite Hm in Hcs, Hcs'.
    rewrite list_lookup_fmap in Hcs, Hcs'.
    destruct (seq 0 (length r.1) !! j) as [x|] eqn:Hx; [|discriminate].
    destruct (seq 0 (length r.1) !! S j) as [x'|] eqn:Hx'; [|discriminate].
    apply lookup_seq in Hx, Hx'. cbn in Hcs, Hcs'.
    injection Hcs as <-. injection Hcs' as <-. lia.
  - intros HOT.
    destruct (online_phase_completes E M sk HP HOT) as (sf & Hsf & Hc & Hp).
    fold r in Hsf. exists sf. split; [exact Hsf|]. split; [exact Hc|].
    rewrite Hsf in Hl. cbn [final_state] in Hl.
    assert (Hlen : length r.1 = S (Z.to_nat num_rounds)) by lia.
    split; [|split; [exact Hp|exact Hlen]].
    pose proof (loop_from_final_round E M sk (Z.to_nat num_rounds) init_state eq_refl) as Hfr.
    cbn [ctr init_state] in Hfr. specialize (Hfr ltac:(lia) ltac:(lia)).
    fold (online_phase E M sk) in Hfr. fold r in Hfr. rewrite Hsf in Hfr.
    cbn [final_state] in Hfr. lia.
Qed.

(** *** The Request and BlindEval theorems on the concrete session *)

Lemma request_message_witness :
  consistent (P := pool) /\ 0 <= 3 < tau (Params := pool) /\
  let r := Request (P := pool) sample_material sample_key 3 sample_dest in
  r.2 = (c_sum r.1 mod delta (P := pool) - bpr sample_material 3) mod delta (P := pool).
Proof.
  assert (Hc : 0 <= 3 < tau (Params := pool)) by (vm_compute; intuition congruence).
  split; [exact pool_consistent|]. split; [exact Hc|].
  exact (proj1 (proj2 (proj2 (request_message (P := pool) sample_material sample_key 3
                                sample_dest pool_consistent Hc)))).
Defined.

Lemma blind_eval_reply_witness :
  consistent (P := pool) /\ 0 <= 3 < tau (Params := pool) /\
  length (BlindEval (P := pool) sample_material sample_key 3 [] [] 5)
  = Z.to_nat (delta (P := pool)).
Proof.
  assert (Hc : 0 <= 3 < tau (Params := pool)) by (vm_compute; intuition congruence).
  split; [exact pool_consistent|]. split; [exact Hc|].
  exact (proj1 (proj2 (proj2 (proj2
           (blind_eval_reply (P := pool) sample_material sample_key 3 [] [] 5
              pool_consistent Hc))))).
Defined.

(** * Further properties of the preprocessing loops *)

(** ** Tiling: what is written and what is left alone *)

(** X1.  The phase-one receiver writes the [n * tau] bits it was handed and
    nothing else: bit [k] of that range ends up as [b_n[k mod n]], and every
    other position of the vector is as it was. *)
Theorem phase_one_receive_frame {P : Params} (b_n bv : Z -> bool) (k : Z) :
  consistent ->
  (0 <= k < n * tau -> phase_one_iknp_receive b_n bv k = b_n (k mod n)) /\
  (~ 0 <= k < n * tau -> phase_one_iknp_receive b_n bv k = bv k).
Proof.
  intros HP. pose proof HP as (Hn & Ht & _).
  unfold phase_one_iknp_receive. rewrite (tile_prefix HP) by lia.
  rewrite Z2Nat.id by lia.
  split; intros Hk; case_decide; try reflexivity; lia.
Qed.

Lemma phase_one_receive_frame_witness :
  consistent (P := pool) /\
  phase_one_iknp_receive (P := pool) sample_choice (fun _ => true) (-1) = true.
Proof.
  split; [exact pool_consistent|].
  refine (proj2 (phase_one_receive_frame (P := pool) sample_choice (fun _ => true) (-1)
                   pool_consistent) _).
  vm_compute. intuition congruence.
Defined.

Lemma with_rows_consistent {P : Params} (rows : Z) :
  0 <= n -> 0 <= rows < 2 ^ 32 -> n * rows < 2 ^ 32 ->
  consistent (P := with_rows rows).
Proof.
  intros Hn Hr Hnr. unfold consistent. cbn [n tau lg_lg_p lg_q num_rounds with_rows].
  repeat split; try lia; reflexivity.
Qed.

(** X2.  The "unwasteful" IKNP receiver tiles [kappa] rows: [b[j*n + i] = b_n[i]]
    for [j < kappa], [i < n], and no position outside the [n * kappa] bits of
    the vector is written. *)
Theorem unwasteful_choice_bits_tiled {P : Params} (b_n bv : Z -> bool) :
  0 <= n -> 0 <= kappa < 2 ^ 32 -> n * kappa < 2 ^ 32 ->
  (forall j i, 0 <= j < kappa -> 0 <= i < n ->
     phase_one_iknp_unwasteful_receive b_n bv (j * n + i) = b_n i) /\
  (forall k, ~ 0 <= k < n * kappa ->
     phase_one_iknp_unwasteful_receive b_n bv k = bv k).
Proof.
  intros Hn Hk Hnk.
  pose proof (with_rows_consistent kappa Hn Hk Hnk) as HP'.
  assert (Hall : forall k,
             phase_one_iknp_unwasteful_receive b_n bv k
             = if decide (0 <= k < Z.of_nat (Z.to_nat kappa) * n)
               then b_n (k mod n) else bv k).
  { intros k. exact (tile_prefix (P := with_rows kappa) HP' b_n bv (Z.to_nat kappa) k
                       (Nat.le_refl _)). }
  rewrite Z2Nat.id in Hall by lia.
  split.
  - intros j i Hj Hi. rewrite Hall. case_decide; [|nia].
    rewrite Z.add_comm, Z_mod_plus_full, Z.mod_small by lia. reflexivity.
  - intros k Hk'. rewrite Hall. case_decide; [lia|reflexivity].
Qed.

Lemma unwasteful_choice_bits_tiled_witness :
  0 <= n (Params := pool) /\ 0 <= kappa (Params := pool) < 2 ^ 32 /\
  n (Params := pool) * kappa (Params := pool) < 2 ^ 32 /\
  phase_one_iknp_unwasteful_receive (P := pool) sample_choice (fun _ => false)
    (6143 * n (Params := pool) + 481) = sample_choice 481.
Proof.
  assert (Hn : 0 <= n (Params := pool)) by (vm_compute; congruence).
  assert (Hk : 0 <= kappa (Params := pool) < 2 ^ 32) by (vm_compute; intuition congruence).
  assert (Hnk : n (Params := pool) * kappa (Params := pool) < 2 ^ 32)
    by (vm_compute; reflexivity).
  split; [exact Hn|]. split; [exact Hk|]. split; [exact Hnk|].
  refine (proj1 (unwasteful_choice_bits_tiled (P := pool) sample_choice (fun _ => false)
                   Hn Hk Hnk) 6143 481 _ _); vm_compute; intuition congruence.
Defined.

(** ** The extension of [n] Silent-OT results to [n * kappa] *)

Lemma index_injective (w j j' i i' : Z) :
  0 <= i < w -> 0 <= i' < w -> j * w + i = j' * w + i' -> j = j' /\ i = i'.
Proof.
  intros Hi Hi' He. assert (j = j') by nia. subst j'. lia.
Qed.

Section Extension.
Context {P : Params} (G : block -> nat -> block) (b_n : Z -> bool).
Context (Hn : 0 <= n) (Hk : 0 <= kappa) (Hnk : n * kappa < 2 ^ 32).

Lemma extension_index (j i : nat) :
  Z.of_nat j < kappa -> Z.of_nat i < n ->
  u32 (u32 (Z.of_nat j * n) + Z.of_nat i) = Z.of_nat j * n + Z.of_nat i.
Proof.
  intros Hj Hi.
  assert (Z.of_nat j * n + n <= n * kappa) by nia.
  assert (0 <= Z.of_nat j * n) by nia.
  rewrite (u32_small (Z.of_nat j * n)) by lia. apply u32_small. lia.
Qed.

(** Column [i] after [m] rows: the three PRNGs have advanced by [m], rows
    [0 .. m-1] of the column hold the tiled bit and the blocks drawn, and
    everything else is untouched. *)
Lemma extension_column_prefix (i : nat) (s0 : extension_column) (m : nat) :
  Z.of_nat i < n -> Z.of_nat m <= kappa ->
  let sm := fold_left (extension_body G b_n i) (seq 0 m) s0 in
  (prng_msg_0 sm = {| prng_seed := prng_seed (prng_msg_0 s0);
                      prng_pos := (prng_pos (prng_msg_0 s0) + m)%nat |} /\
   prng_msg_1 sm = {| prng_seed := prng_seed (prng_msg_1 s0);
                      prng_pos := (prng_pos (prng_msg_1 s0) + m)%nat |} /\
   prng_res sm = {| prng_seed := prng_seed (prng_res s0);
                    prng_pos := (prng_pos (prng_res s0) + m)%nat |}) /\
  (forall j : nat, (j < m)%nat ->
     silent_ot_n_b (ext_vars sm) (Z.of_nat j * n + Z.of_nat i) = b_n (Z.of_nat i) /\
     silent_ot_n_Sc (ext_vars sm) (Z.of_nat j * n + Z.of_nat i)
     = (G (prng_seed (prng_msg_0 s0)) (prng_pos (prng_msg_0 s0) + j),
        G (prng_seed (prng_msg_1 s0)) (prng_pos (prng_msg_1 s0) + j)) /\
     silent_ot_n_Rs_r (ext_vars sm) (Z.of_nat j * n + Z.of_nat i)
     = G (prng_seed (prng_res s0)) (prng_pos (prng_res s0) + j)) /\
  (forall k, (forall j : nat, (j < m)%nat -> k <> Z.of_nat j * n + Z.of_nat i) ->
     silent_ot_n_b (ext_vars sm) k = silent_ot_n_b (ext_vars s0) k /\
     silent_ot_n_Sc (ext_vars sm) k = silent_ot_n_Sc (ext_vars s0) k /\
     silent_ot_n_Rs_r (ext_vars sm) k = silent_ot_n_Rs_r (ext_vars s0) k).
Proof.
  intros Hi. induction m as [|m IH]; intros Hm.
  - cbn. repeat split; try (intros; lia).
    + destruct (prng_msg_0 s0); cbn; f_equal; lia.
    + destruct (prng_msg_1 s0); cbn; f_equal; lia.
    + destruct (prng_res s0); cbn; f_equal; lia.
  - rewrite seq_S, fold_left_app. cbn [fold_left Nat.add].
    destruct IH as ((Hg0 & Hg1 & Hg2) & Hhit & Hmiss); [lia|].
    set (sm := fold_left (extension_body G b_n i) (seq 0 m) s0) in *.
    unfold extension_body, PRNG_get.
    rewrite extension_index by lia.
    rewrite Hg0, Hg1, Hg2.
    cbn [ext_vars prng_msg_0 prng_msg_1 prng_res prng_seed prng_pos
         silent_ot_n_b silent_ot_n_Sc silent_ot_n_Rs_r].
    split; [|split].
    + repeat split; f_equal; lia.
    + intros j Hj. destruct (decide (j = m)) as [->|Hne].
      * rewrite !fn_lookup_insert. cbn [fst snd]. repeat split.
      * assert (Hk0 : Z.of_nat m * n + Z.of_nat i <> Z.of_nat j * n + Z.of_nat i) by nia.
        rewrite !fn_lookup_insert_ne by exact Hk0. apply Hhit. lia.
    + intros k Hkj.
      assert (Hk0 : Z.of_nat m * n + Z.of_nat i <> k).
      { intros <-. apply (Hkj m); [lia|reflexivity]. }
      rewrite !fn_lookup_insert_ne by exact Hk0.
      apply Hmiss. intros j Hj. apply Hkj. lia.
Qed.

Context (Sc_n : Z -> block * block) (Rs_r_n : Z -> block).

(** After the first [t] columns. *)
Lemma extension_prefix (v : extension_vars) (t : nat) :
  Z.of_nat t <= n ->
  let v' := fold_left (extension_column_loop G b_n Sc_n Rs_r_n) (seq 0 t) v in
  (forall i j : nat, (i < t)%nat -> Z.of_nat j < kappa ->
     silent_ot_n_b v' (Z.of_nat j * n + Z.of_nat i) = b_n (Z.of_nat i) /\
     silent_ot_n_Sc v' (Z.of_nat j * n + Z.of_nat i)
     = (G (Sc_n (Z.of_nat i)).1 j, G (Sc_n (Z.of_nat i)).2 j) /\
     silent_ot_n_Rs_r v' (Z.of_nat j * n + Z.of_nat i) = G (Rs_r_n (Z.of_nat i)) j) /\
  (forall k,
     (forall i j : nat, (i < t)%nat -> Z.of_nat j < kappa ->
        k <> Z.of_nat j * n + Z.of_nat i) ->
     silent_ot_n_b v' k = silent_ot_n_b v k /\
     silent_ot_n_Sc v' k = silent_ot_n_Sc v k /\
     silent_ot_n_Rs_r v' k = silent_ot_n_Rs_r v k).
Proof.
  induction t as [|t IH]; intros Ht.
  - cbn. split; [intros; lia|]. intros; repeat split.
  - rewrite seq_S, fold_left_app. cbn [fold_left Nat.add].
    destruct IH as (Hhit & Hmiss); [lia|].
    set (vt := fold_left (extension_column_loop G b_n Sc_n Rs_r_n) (seq 0 t) v) in *.
    unfold extension_column_loop.
    destruct (extension_column_prefix t
                {| ext_vars := vt;
                   prng_msg_0 := PRNG_new (Sc_n (Z.of_nat t)).1;
                   prng_msg_1 := PRNG_new (Sc_n (Z.of_nat t)).2;
                   prng_res := PRNG_new (Rs_r_n (Z.of_nat t)) |}
                (Z.to_nat kappa)) as (_ & Hin & Hout); [lia|lia|].
    cbn [ext_vars prng_msg_0 prng_msg_1 prng_res PRNG_new prng_seed prng_pos Nat.add]
      in Hin, Hout.
    split.
    + intros i j Hi Hj. destruct (decide (i = t)) as [->|Hne].
      * apply Hin. lia.
      * destruct (Hout (Z.of_nat j * n + Z.of_nat i)) as (-> & -> & ->).
        { intros j' Hj' He.
          apply (index_injective n) in He; [lia|lia|lia]. }
        apply Hhit; lia.
    + intros k Hkij.
      destruct (Hout k) as (-> & -> & ->).
      { intros j Hj. apply Hkij; lia. }
      apply Hmiss. intros i j Hi Hj. apply Hkij; lia.
Qed.

End Extension.

Lemma phase_one_extension_spec {P : Params} (G : block -> nat -> block) (b_n : Z -> bool)
    (Sc_n : Z -> block * block) (Rs_r_n : Z -> block) (v : extension_vars) :
  0 <= n -> 0 <= kappa -> n * kappa < 2 ^ 32 ->
  let v' := phase_one_extension G b_n Sc_n Rs_r_n v in
  (forall j i, 0 <= j < kappa -> 0 <= i < n ->
     silent_ot_n_b v' (j * n + i) = b_n i /\
     silent_ot_n_Sc v' (j * n + i) = (G (Sc_n i).1 (Z.to_nat j), G (Sc_n i).2 (Z.to_nat j)) /\
     silent_ot_n_Rs_r v' (j * n + i) = G (Rs_r_n i) (Z.to_nat j)) /\
  (forall k, ~ 0 <= k < n * kappa ->
     silent_ot_n_b v' k = silent_ot_n_b v k /\
     silent_ot_n_Sc v' k = silent_ot_n_Sc v k /\
     silent_ot_n_Rs_r v' k = silent_ot_n_Rs_r v k).
Proof.
  intros Hn Hk Hnk v'.
  destruct (extension_prefix G b_n Hn Hk Hnk Sc_n Rs_r_n v (Z.to_nat n)) as (Hhit & Hmiss);
    [lia|].
  fold (phase_one_extension G b_n Sc_n Rs_r_n v) in Hhit, Hmiss. fold v' in Hhit, Hmiss.
  split.
  - intros j i Hj Hi.
    specialize (Hhit (Z.to_nat i) (Z.to_nat j) ltac:(lia) ltac:(lia)).
    rewrite !Z2Nat.id in Hhit by lia. exact Hhit.
  - intros k Hk'. apply Hmiss. intros i j Hi Hj ->. apply Hk'. nia.
Qed.

(** X3.  The extension loop fills exactly the [n * kappa] positions of the new
    vectors: position [j*n + i] gets the bit [b_n[i]] and the [j]-th blocks of
    the three streams seeded with [Sc_n[i][0]], [Sc_n[i][1]] and [Rs_r_n[i]];
    positions outside are not written. *)
Theorem extension_fills {P : Params} (G : block -> nat -> block) (b_n : Z -> bool)
    (Sc_n : Z -> block * block) (Rs_r_n : Z -> block) (v : extension_vars) :
  0 <= n -> 0 <= kappa -> n * kappa < 2 ^ 32 ->
  let v' := phase_one_extension G b_n Sc_n Rs_r_n v in
  (forall j i, 0 <= j < kappa -> 0 <= i < n ->
     silent_ot_n_b v' (j * n + i) = b_n i /\
     silent_ot_n_Sc v' (j * n + i) = (G (Sc_n i).1 (Z.to_nat j), G (Sc_n i).2 (Z.to_nat j)) /\
     silent_ot_n_Rs_r v' (j * n + i) = G (Rs_r_n i) (Z.to_nat j)) /\
  (forall k, ~ 0 <= k < n * kappa ->
     silent_ot_n_b v' k = silent_ot_n_b v k /\
     silent_ot_n_Sc v' k = silent_ot_n_Sc v k /\
     silent_ot_n_Rs_r v' k = silent_ot_n_Rs_r v k).
Proof. apply phase_one_extension_spec. Qed.

(** X4.  The extension preserves OT correctness: when each of the [n] Silent-OT
    results is the message its choice bit selects, so is each of the
    [n * kappa] extended ones, and the extended choice bits repeat [b_n] with
    period [n]. *)
Theorem extension_preserves_ot {P : Params} (G : block -> nat -> block) (b_n : Z -> bool)
    (Sc_n : Z -> block * block) (Rs_r_n : Z -> block) (v : extension_vars) (k : Z) :
  0 <= n -> 0 <= kappa -> n * kappa < 2 ^ 32 ->
  (forall i, 0 <= i < n -> Rs_r_n i = at2 (Sc_n i) (b_n i)) ->
  0 <= k < n * kappa ->
  let v' := phase_one_extension G b_n Sc_n Rs_r_n v in
  silent_ot_n_Rs_r v' k = at2 (silent_ot_n_Sc v' k) (silent_ot_n_b v' k) /\
  silent_ot_n_b v' k = b_n (k mod n).
Proof.
  intros Hn Hk Hnk Hot Hrange v'.
  assert (Hpos : 0 < n) by nia.
  pose proof (Z.mod_pos_bound k n Hpos) as Hm.
  assert (Hdm : k = n * (k / n) + k mod n) by (apply Z.div_mod; lia).
  assert (Hq : 0 <= k / n < kappa).
  { split; [apply Z.div_pos; lia|].
    apply Z.div_lt_upper_bound; lia. }
  destruct (phase_one_extension_spec G b_n Sc_n Rs_r_n v Hn Hk Hnk) as (Hhit & _).
  destruct (Hhit (k / n) (k mod n) Hq Hm) as (Hb & HSc & HRs).
  replace (k / n * n + k mod n) with k in Hb, HSc, HRs by lia.
  fold v' in Hb, HSc, HRs.
  rewrite Hb, HSc, HRs, (Hot (k mod n)) by assumption.
  split; [|reflexivity].
  destruct (b_n (k mod n)); reflexivity.
Qed.

Lemma pool_extension_fits :
  0 <= n (Params := pool) /\ 0 <= kappa (Params := pool) /\
  n (Params := pool) * kappa (Params := pool) < 2 ^ 32.
Proof. vm_compute. intuition congruence. Qed.

Lemma extension_fills_witness :
  let v' := phase_one_extension (P := pool) sample_stream sample_choice sample_pair
              sample_results empty_extension in
  silent_ot_n_Rs_r v' (6143 * n (Params := pool) + 481)
  = sample_stream (sample_results 481) (Z.to_nat 6143).
Proof.
  destruct pool_extension_fits as (Hn & Hk & Hnk).
  assert (Hj : 0 <= 6143 < kappa (Params := pool)) by (vm_compute; intuition congruence).
  assert (Hi : 0 <= 481 < n (Params := pool)) by (vm_compute; intuition congruence).
  exact (proj2 (proj2 (proj1 (extension_fills (P := pool) sample_stream sample_choice
                                sample_pair sample_results empty_extension Hn Hk Hnk)
                         6143 481 Hj Hi))).
Defined.

Lemma extension_preserves_ot_witness :
  let v' := phase_one_extension (P := pool) sample_stream sample_choice sample_pair
              sample_results empty_extension in
  silent_ot_n_Rs_r v' 1000000
  = at2 (silent_ot_n_Sc v' 1000000) (silent_ot_n_b v' 1000000).
Proof.
  destruct pool_extension_fits as (Hn & Hk & Hnk).
  assert (Hr : 0 <= 1000000 < n (Params := pool) * kappa (Params := pool))
    by (vm_compute; intuition congruence).
  exact (proj1 (extension_preserves_ot (P := pool) sample_stream sample_choice sample_pair
                  sample_results empty_extension 1000000 Hn Hk Hnk
                  (fun i _ => eq_refl) Hr)).
Defined.

(** ** The KKRT routines: batching and choices *)

Lemma step_eq : step = 1024.
Proof. reflexivity. Qed.

(** The corrections for [r > 0] OTs start with a batch of [min r step]. *)
Lemma batch_sizes_unfold (r : Z) :
  0 < r -> batch_sizes r = Z.min r step :: batch_sizes (r - Z.min r step).
Proof.
  intros Hr. unfold batch_sizes. rewrite step_eq.
  destruct (Z.le_gt_cases 1024 r) as [Hge|Hlt].
  - rewrite Z.min_r by lia.
    assert (Hq : r / 1024 = (r - 1024) / 1024 + 1).
    { replace r with ((r - 1024) + 1 * 1024) at 1 by lia. apply Z.div_add. lia. }
    assert (Hm : r mod 1024 = (r - 1024) mod 1024).
    { replace r with ((r - 1024) + 1 * 1024) at 1 by lia. apply Z_mod_plus_full. }
    assert (0 <= (r - 1024) / 1024) by (apply Z.div_pos; lia).
    rewrite Hq, Hm, Z2Nat.inj_add, Nat.add_comm by lia. reflexivity.
  - rewrite Z.min_l by lia. rewrite Z.sub_diag.
    rewrite (Z.div_small r), (Z.mod_small r) by lia.
    destruct (Z.eqb_spec r 0) as [->|_]; [lia|]. reflexivity.
Qed.

Lemma batch_sizes_0 : batch_sizes 0 = [].
Proof. reflexivity. Qed.

Lemma batch_sizes_sum (r : Z) : 0 <= r -> sumZ (batch_sizes r) = r.
Proof.
  intros Hr. unfold batch_sizes. rewrite sumZ_app, step_eq.
  assert (Hrep : forall k : nat, sumZ (replicate k 1024) = Z.of_nat k * 1024).
  { induction k as [|k IH]; [reflexivity|].
    change (sumZ (replicate (S k) 1024)) with (1024 + sumZ (replicate k 1024)). lia. }
  rewrite Hrep, Z2Nat.id by (apply Z.div_pos; lia).
  pose proof (Z.div_mod r 1024 ltac:(lia)).
  destruct (Z.eqb_spec (r mod 1024) 0); cbn; lia.
Qed.

Lemma batch_sizes_bounds (r : Z) :
  0 <= r -> Forall (fun m => 0 < m <= step) (batch_sizes r).
Proof.
  intros Hr. unfold batch_sizes. rewrite step_eq. apply Forall_app. split.
  - apply Forall_forall. intros m Hm. apply list_elem_of_In, elem_of_replicate in Hm. lia.
  - pose proof (Z.mod_pos_bound r 1024 ltac:(lia)).
    destruct (Z.eqb_spec (r mod 1024) 0); repeat constructor; lia.
Qed.

Lemma batches_from_sizes (i : Z) (sizes : list Z) :
  map snd (batches_from i sizes) = sizes.
Proof.
  revert i. induction sizes as [|m rest IH]; intros i; [reflexivity|].
  cbn. now rewrite IH.
Qed.

Lemma corrections_app (t1 t2 : list kkrt_event) :
  corrections (t1 ++ t2) = corrections t1 ++ corrections t2.
Proof. unfold corrections. now rewrite map_app, concat_app. Qed.

Lemma corrections_encodes {A : Type} (f : A -> Z * Z) (l : list A) :
  corrections (map (fun x => KEncode (f x).1 (f x).2) l) = [].
Proof. induction l as [|x l IH]; [reflexivity|exact IH]. Qed.

Section Kkrt.
Context {P : Params} (HP : consistent).
Context (draws : nat -> Byte.byte) (enc : Z -> Z -> block).

Lemma batch_eq (i : Z) : 0 <= i <= tau -> batch i = Z.min (tau - i) step.
Proof.
  intros Hi. destruct HP as (_ & Ht & _). unfold batch, u64.
  rewrite (u32_small (tau - i)) by lia.
  rewrite !Z.mod_small; [reflexivity|rewrite step_eq; lia|lia].
Qed.

(** The value stored in [bpr]: the low [lg_delta] bits of the byte drawn. *)
Lemma drawn_choice (d : nat) :
  u64 (Z.land (Z.of_N (Byte.to_N (draws d))) (u32 (delta - 1)))
  = Z.of_N (Byte.to_N (draws d)) mod delta /\
  0 <= Z.of_N (Byte.to_N (draws d)) mod delta < delta.
Proof.
  pose proof (delta_pos HP) as Hd. pose proof (lg_delta_range HP) as Hl.
  assert (delta <= 2 ^ 7) by (rewrite (delta_eq HP); apply Z.pow_le_mono_r; lia).
  pose proof (Z.mod_pos_bound (Z.of_N (Byte.to_N (draws d))) delta Hd) as Hm.
  split; [|exact Hm].
  change (Z.land ?x (u32 (delta - 1))) with (mod_delta x).
  rewrite (mod_delta_eq HP). unfold u64. apply Z.mod_small. lia.
Qed.

(** [m] iterations of the receiver's inner loop from OT [recv_i s]. *)
Lemma receive_body_prefix (s : kkrt_receiver) (m : nat) :
  0 <= recv_i s -> recv_drawn s = Z.to_nat (recv_i s) ->
  let s' := fold_left (receive_body draws enc) (seq 0 m) s in
  recv_i s' = recv_i s + Z.of_nat m /\
  recv_drawn s' = Z.to_nat (recv_i s + Z.of_nat m) /\
  recv_trace s'
  = recv_trace s
    ++ map (fun t : nat => KEncode (recv_i s + Z.of_nat t)
                             (choice_of draws (recv_i s + Z.of_nat t))) (seq 0 m) /\
  (forall k, recv_bpr s' k
             = if decide (recv_i s <= k < recv_i s + Z.of_nat m)
               then choice_of draws k else recv_bpr s k) /\
  (forall k, recv_Rc_r s' k
             = if decide (recv_i s <= k < recv_i s + Z.of_nat m)
               then enc k (choice_of draws k) else recv_Rc_r s k).
Proof.
  intros H0 Hd. induction m as [|m IH].
  - cbn. rewrite Z.add_0_r, app_nil_r.
    repeat split; try assumption; intros k; case_decide; try reflexivity; lia.
  - rewrite seq_S, fold_left_app. cbn [fold_left Nat.add].
    destruct IH as (Hi & Hdr & Htr & Hb & Hr).
    set (sm := fold_left (receive_body draws enc) (seq 0 m) s) in *.
    unfold receive_body. cbn [recv_i recv_drawn recv_trace recv_bpr recv_Rc_r].
    rewrite Hdr, Hi. destruct (drawn_choice (Z.to_nat (recv_i s + Z.of_nat m))) as [-> _].
    fold (choice_of draws (recv_i s + Z.of_nat m)).
    repeat split.
    + lia.
    + lia.
    + rewrite Htr, map_app, <- app_assoc. reflexivity.
    + intros k. destruct (decide (recv_i s + Z.of_nat m = k)) as [<-|Hne].
      * rewrite fn_lookup_insert. case_decide; [reflexivity|lia].
      * rewrite fn_lookup_insert_ne, Hb by exact Hne.
        repeat case_decide; try reflexivity; lia.
    + intros k. destruct (decide (recv_i s + Z.of_nat m = k)) as [<-|Hne].
      * rewrite fn_lookup_insert. case_decide; [reflexivity|lia].
      * rewrite fn_lookup_insert_ne, Hr by exact Hne.
        repeat case_decide; try reflexivity; lia.
Qed.

(** The receiver's loop from OT [recv_i s] on: with enough fuel it ends at
    [tau], having gone through the batches of the remaining OTs. *)
Lemma receive_loop_spec (fuel : nat) (s : kkrt_receiver) :
  0 <= recv_i s <= tau -> recv_drawn s = Z.to_nat (recv_i s) ->
  (Z.to_nat (tau - recv_i s) <= fuel)%nat ->
  exists s', receive_loop draws enc fuel s = Some s' /\
    recv_i s' = tau /\
    recv_trace s'
    = recv_trace s
      ++ concat (map (receive_batch draws)
                   (batches_from (recv_i s) (batch_sizes (tau - recv_i s)))) /\
    (forall k, recv_bpr s' k
               = if decide (recv_i s <= k < tau) then choice_of draws k else recv_bpr s k) /\
    (forall k, recv_Rc_r s' k
               = if decide (recv_i s <= k < tau)
                 then enc k (choice_of draws k) else recv_Rc_r s k).
Proof.
  pose proof HP as (_ & Ht & _).
  revert s. induction fuel as [|fuel IH]; intros s Hi Hd Hf.
  - assert (recv_i s = tau) as He by lia.
    cbn [receive_loop]. rewrite u32_small by lia.
    rewrite (proj2 (Z.ltb_ge _ _)) by lia. exists s.
    rewrite He, Z.sub_diag, batch_sizes_0. cbn. rewrite app_nil_r.
    repeat split; intros k; case_decide; try reflexivity; lia.
  - cbn [receive_loop]. rewrite u32_small by lia.
    destruct (Z.ltb_spec (recv_i s) tau) as [Hlt|Hge].
    + rewrite (batch_eq (recv_i s)) by lia.
      set (m := Z.min (tau - recv_i s) step).
      assert (Hm : 0 < m <= tau - recv_i s) by (unfold m; rewrite step_eq; lia).
      destruct (receive_body_prefix s (Z.to_nat m)) as (Hi1 & Hd1 & Ht1 & Hb1 & Hr1);
        [lia|exact Hd|].
      set (s1 := fold_left (receive_body draws enc) (seq 0 (Z.to_nat m)) s) in *.
      rewrite Z2Nat.id in Hi1, Hd1, Hb1, Hr1 by lia.
      match goal with |- context [receive_loop draws enc fuel ?s2] =>
        destruct (IH s2) as (s' & Hrun & Hend & Htr & Hb & Hr) end;
        cbn [recv_i recv_drawn recv_trace recv_bpr recv_Rc_r]; [lia|lia|lia|].
      cbn [recv_i recv_drawn recv_trace recv_bpr recv_Rc_r] in Htr, Hb, Hr.
      exists s'. split; [exact Hrun|]. split; [exact Hend|].
      rewrite (batch_sizes_unfold (tau - recv_i s)) by lia. fold m.
      cbn [batches_from map concat]. unfold receive_batch at 1. cbn [fst snd].
      split; [|split].
      * rewrite Htr, Ht1, Hi1, <- !app_assoc.
        replace (tau - (recv_i s + m)) with (tau - recv_i s - m) by lia.
        reflexivity.
      * intros k. rewrite Hb, Hb1, Hi1.
        repeat case_decide; try reflexivity; lia.
      * intros k. rewrite Hr, Hr1, Hi1.
        repeat case_decide; try reflexivity; lia.
    + assert (recv_i s = tau) as He by lia. exists s.
      rewrite He, Z.sub_diag, batch_sizes_0. cbn. rewrite app_nil_r.
      repeat split; intros k; case_decide; try reflexivity; lia.
Qed.

End Kkrt.

Section KkrtSender.
Context {P : Params} (HP : consistent).
Context (enc : Z -> Z -> block).

(** The first [m] choices of OT [i]. *)
Lemma send_choice_prefix (i : Z) (s : kkrt_sender) (m : nat) :
  let s' := fold_left (send_choice enc i) (seq 0 m) s in
  send_i s' = send_i s /\
  send_trace s' = send_trace s ++ map (fun k : nat => KEncode i (Z.of_nat k)) (seq 0 m) /\
  (forall i' k', send_Ss s' i' k'
                 = if decide (i' = i /\ 0 <= k' < Z.of_nat m)
                   then enc i' k' else send_Ss s i' k').
Proof.
  induction m as [|m IH].
  - cbn. rewrite app_nil_r. repeat split. intros i' k'. case_decide; [lia|reflexivity].
  - rewrite seq_S, fold_left_app. cbn [fold_left Nat.add].
    destruct IH as (Hi & Htr & HSs).
    set (sm := fold_left (send_choice enc i) (seq 0 m) s) in *.
    unfold send_choice. cbn [send_i send_trace send_Ss].
    split; [exact Hi|]. split.
    + rewrite Htr, map_app, <- app_assoc. reflexivity.
    + intros i' k'. destruct (decide (i = i')) as [<-|Hne].
      * rewrite fn_lookup_insert.
        destruct (decide (Z.of_nat m = k')) as [<-|Hnk].
        -- rewrite fn_lookup_insert. case_decide; [reflexivity|lia].
        -- rewrite fn_lookup_insert_ne, HSs by exact Hnk.
           repeat case_decide; try reflexivity; lia.
      * rewrite fn_lookup_insert_ne, HSs by exact Hne.
        repeat case_decide; try reflexivity; lia.
Qed.

(** [m] OTs of a batch, each with its [delta] choices. *)
Lemma send_body_prefix (s : kkrt_sender) (m : nat) :
  let s' := fold_left (send_body enc) (seq 0 m) s in
  send_i s' = send_i s + Z.of_nat m /\
  send_trace s'
  = send_trace s
    ++ concat (map (fun t : nat =>
                      map (fun k : nat => KEncode (send_i s + Z.of_nat t) (Z.of_nat k))
                        (seq 0 (Z.to_nat delta)))
                 (seq 0 m)) /\
  (forall i' k', send_Ss s' i' k'
                 = if decide (send_i s <= i' < send_i s + Z.of_nat m /\ 0 <= k' < delta)
                   then enc i' k' else send_Ss s i' k').
Proof.
  pose proof (delta_pos HP) as Hd.
  induction m as [|m IH].
  - cbn. rewrite app_nil_r, Z.add_0_r. repeat split.
    intros i' k'. case_decide; [lia|reflexivity].
  - rewrite seq_S, fold_left_app. cbn [fold_left Nat.add].
    destruct IH as (Hi & Htr & HSs).
    set (sm := fold_left (send_body enc) (seq 0 m) s) in *.
    unfold send_body.
    destruct (send_choice_prefix (send_i sm) sm (Z.to_nat delta)) as (Hi1 & Ht1 & HS1).
    cbn [send_i send_trace send_Ss].
    split; [rewrite Hi1, Hi; lia|]. split.
    + rewrite Ht1, Hi, Htr, map_app, concat_app, <- app_assoc. cbn [map concat].
      now rewrite app_nil_r.
    + intros i' k'. rewrite HS1, HSs, Hi, Z2Nat.id by lia.
      repeat case_decide; try reflexivity; lia.
Qed.

Lemma send_loop_spec (fuel : nat) (s : kkrt_sender) :
  0 <= send_i s <= tau -> (Z.to_nat (tau - send_i s) <= fuel)%nat ->
  exists s', send_loop enc fuel s = Some s' /\
    send_i s' = tau /\
    send_trace s'
    = send_trace s
      ++ concat (map send_batch (batches_from (send_i s) (batch_sizes (tau - send_i s)))) /\
    (forall i' k', send_Ss s' i' k'
                   = if decide (send_i s <= i' < tau /\ 0 <= k' < delta)
                     then enc i' k' else send_Ss s i' k').
Proof.
  pose proof HP as (_ & Ht & _).
  revert s. induction fuel as [|fuel IH]; intros s Hi Hf.
  - assert (send_i s = tau) as He by lia.
    cbn [send_loop]. rewrite u32_small by lia.
    rewrite (proj2 (Z.ltb_ge _ _)) by lia. exists s.
    rewrite He, Z.sub_diag, batch_sizes_0. cbn. rewrite app_nil_r.
    repeat split; intros i' k'; case_decide; try reflexivity; lia.
  - cbn [send_loop]. rewrite u32_small by lia.
    destruct (Z.ltb_spec (send_i s) tau) as [Hlt|Hge].
    + rewrite (batch_eq HP (send_i s)) by lia.
      set (m := Z.min (tau - send_i s) step).
      assert (Hm : 0 < m <= tau - send_i s) by (unfold m; rewrite step_eq; lia).
      match goal with |- context [fold_left (send_body enc) _ ?s0] =>
        destruct (send_body_prefix s0 (Z.to_nat m)) as (Hi1 & Ht1 & HS1) end.
      cbn [send_i send_trace send_Ss] in Hi1, Ht1, HS1.
      rewrite Z2Nat.id in Hi1, HS1 by lia.
      match goal with |- context [send_loop enc fuel ?s2] =>
        destruct (IH s2) as (s' & Hrun & Hend & Htr & HSs) end; [lia|lia|].
      exists s'. split; [exact Hrun|]. split; [exact Hend|].
      rewrite (batch_sizes_unfold (tau - send_i s)) by lia. fold m.
      cbn [batches_from map concat]. unfold send_batch at 1. cbn [fst snd].
      split.
      * rewrite Htr, Ht1, Hi1, <- !app_assoc.
        replace (tau - (send_i s + m)) with (tau - send_i s - m) by lia.
        reflexivity.
      * intros i' k'. rewrite HSs, HS1, Hi1.
        repeat case_decide; try reflexivity; lia.
    + assert (send_i s = tau) as He by lia. exists s.
      rewrite He, Z.sub_diag, batch_sizes_0. cbn. rewrite app_nil_r.
      repeat split; intros i' k'; case_decide; try reflexivity; lia.
Qed.

End KkrtSender.

(** *** The whole routines *)

Lemma corrections_of_encodes (tr : list kkrt_event) :
  Forall is_encode tr -> corrections tr = [].
Proof.
  induction 1 as [|e tr He _ IH]; [reflexivity|].
  destruct e; try contradiction. exact IH.
Qed.

Lemma corrections_receive_batches {P : Params} (draws : nat -> Byte.byte)
    (bs : list (Z * Z)) :
  corrections (concat (map (receive_batch draws) bs)) = map snd bs.
Proof.
  induction bs as [|bt bs IH]; [reflexivity|].
  cbn [map concat]. rewrite corrections_app, IH. unfold receive_batch.
  rewrite corrections_app, corrections_of_encodes; [reflexivity|].
  apply Forall_forall. intros e He. apply in_map_iff in He.
  destruct He as (t & <- & _). exact I.
Qed.

Lemma corrections_send_batches {P : Params} (bs : list (Z * Z)) :
  corrections (concat (map send_batch bs)) = map snd bs.
Proof.
  induction bs as [|bt bs IH]; [reflexivity|].
  cbn [map concat]. rewrite corrections_app, IH. unfold send_batch.
  change (corrections (KRecvCorrection bt.2 :: ?l)) with (bt.2 :: corrections l).
  rewrite corrections_of_encodes; [reflexivity|].
  apply Forall_forall. intros e He. apply in_concat in He.
  destruct He as (l & Hl & He). apply in_map_iff in Hl. destruct Hl as (t & <- & _).
  apply in_map_iff in He. destruct He as (k & <- & _). exact I.
Qed.

(** Batches of positive sizes cover the OTs they span. *)
Lemma batches_cover (sizes : list Z) (i0 i : Z) :
  Forall (fun m => 0 < m) sizes -> i0 <= i < i0 + sumZ sizes ->
  exists bt, In bt (batches_from i0 sizes) /\ bt.1 <= i < bt.1 + bt.2.
Proof.
  intros Hpos. revert i0. induction Hpos as [|m sizes Hm _ IH]; intros i0 Hi.
  - cbn in Hi. lia.
  - change (sumZ (m :: sizes)) with (m + sumZ sizes) in Hi.
    destruct (Z.lt_ge_cases i (i0 + m)) as [Hlt|Hge].
    + exists (i0, m). split; [left; reflexivity|cbn; lia].
    + destruct (IH (i0 + m)) as (bt & Hin & Hbt); [lia|].
      exists bt. split; [right; exact Hin|exact Hbt].
Qed.

Section KkrtRoutines.
Context {P : Params} (HP : consistent).

Lemma phase_two_kkrt_receive_spec (ssp : Z) (draws : nat -> Byte.byte)
    (enc : Z -> Z -> block) (bpr0 : Z -> Z) (Rc_r0 : Z -> block) (fuel : nat) :
  (Z.to_nat tau <= fuel)%nat ->
  exists r, phase_two_kkrt_receive ssp draws enc bpr0 Rc_r0 fuel = Some r /\
    recv_i r = tau /\
    recv_trace r
    = [KConfigure ssp lg_delta; KInit tau]
      ++ concat (map (receive_batch draws) (batches_from 0 (batch_sizes tau)))
      ++ [KCheck; KFlush] /\
    (forall k, recv_bpr r k = if decide (0 <= k < tau) then choice_of draws k else bpr0 k) /\
    (forall k, recv_Rc_r r k
               = if decide (0 <= k < tau) then enc k (choice_of draws k) else Rc_r0 k).
Proof.
  intros Hf. pose proof HP as (_ & Ht & _).
  unfold phase_two_kkrt_receive.
  match goal with |- context [receive_loop draws enc fuel ?s0] =>
    destruct (receive_loop_spec HP draws enc fuel s0) as (s' & Hrun & Hend & Htr & Hb & Hr) end;
    cbn [recv_i recv_drawn]; [lia|reflexivity|lia|].
  cbn [recv_i recv_trace recv_bpr recv_Rc_r] in Htr, Hb, Hr.
  rewrite Z.sub_0_r in Htr.
  rewrite Hrun. eexists. split; [reflexivity|].
  cbn [recv_i recv_trace recv_bpr recv_Rc_r].
  split; [exact Hend|]. split; [|split; assumption].
  rewrite Htr, <- app_assoc. reflexivity.
Qed.

Lemma phase_two_kkrt_send_spec (ssp : Z) (enc : Z -> Z -> block)
    (Ss0 : Z -> Z -> block) (fuel : nat) :
  (Z.to_nat tau <= fuel)%nat ->
  exists s, phase_two_kkrt_send ssp enc Ss0 fuel = Some s /\
    send_i s = tau /\
    send_trace s
    = [KConfigure ssp lg_delta; KInit tau]
      ++ concat (map send_batch (batches_from 0 (batch_sizes tau)))
      ++ [KCheck; KFlush] /\
    (forall i k, send_Ss s i k
                 = if decide (0 <= i < tau /\ 0 <= k < delta) then enc i k else Ss0 i k).
Proof.
  intros Hf. pose proof HP as (_ & Ht & _).
  unfold phase_two_kkrt_send.
  match goal with |- context [send_loop enc fuel ?s0] =>
    destruct (send_loop_spec HP enc fuel s0) as (s' & Hrun & Hend & Htr & HSs) end;
    cbn [send_i]; [lia|lia|].
  cbn [send_i send_trace send_Ss] in Htr, HSs.
  rewrite Z.sub_0_r in Htr.
  rewrite Hrun. eexists. split; [reflexivity|].
  cbn [send_i send_trace send_Ss].
  split; [exact Hend|]. split; [|assumption].
  rewrite Htr, <- app_assoc. reflexivity.
Qed.

Lemma choice_of_range (draws : nat -> Byte.byte) (i : Z) :
  0 <= choice_of draws i < delta.
Proof. unfold choice_of. apply Z.mod_pos_bound, (delta_pos HP). Qed.

(** The sender encodes every choice of every OT below [tau]. *)
Lemma send_batches_encode (i k : Z) :
  0 <= i < tau -> 0 <= k < delta ->
  In (KEncode i k) (concat (map send_batch (batches_from 0 (batch_sizes tau)))).
Proof.
  intros Hi Hk. pose proof HP as (_ & Ht & _).
  destruct (batches_cover (batch_sizes tau) 0 i) as (bt & Hin & Hbt).
  { eapply Forall_impl; [|apply batch_sizes_bounds; lia]. cbn beta. intros m Hm. lia. }
  { rewrite batch_sizes_sum by lia. lia. }
  apply in_concat. exists (send_batch bt). split; [apply in_map; exact Hin|].
  unfold send_batch. right. apply in_concat.
  exists (map (fun k0 : nat => KEncode (bt.1 + Z.of_nat (Z.to_nat (i - bt.1))) (Z.of_nat k0))
            (seq 0 (Z.to_nat delta))).
  split.
  - apply (in_map (fun t : nat =>
                     map (fun k0 : nat => KEncode (bt.1 + Z.of_nat t) (Z.of_nat k0))
                       (seq 0 (Z.to_nat delta)))).
    apply in_seq. lia.
  - replace (KEncode i k)
      with (KEncode (bt.1 + Z.of_nat (Z.to_nat (i - bt.1))) (Z.of_nat (Z.to_nat k)))
      by (f_equal; lia).
    apply (in_map (fun k0 : nat =>
                     KEncode (bt.1 + Z.of_nat (Z.to_nat (i - bt.1))) (Z.of_nat k0))).
    apply in_seq. lia.
Qed.

End KkrtRoutines.

(** X5.  The KKRT receiver terminates: given at least [tau] iterations (and [tau]
    within the range of its [int] counter) the loop ends with [i = tau], and
    the routine has configured and initialised the extender, then for each
    batch in turn encoded the choices of its OTs in index order and sent one
    correction of the size of the batch, then checked and flushed. *)
Theorem kkrt_receive_runs {P : Params} (ssp : Z) (draws : nat -> Byte.byte)
    (enc : Z -> Z -> block) (bpr0 : Z -> Z) (Rc_r0 : Z -> block) (fuel : nat) :
  consistent -> tau < 2 ^ 31 -> (Z.to_nat tau <= fuel)%nat ->
  exists r, phase_two_kkrt_receive ssp draws enc bpr0 Rc_r0 fuel = Some r /\
    recv_i r = tau /\
    recv_trace r
    = [KConfigure ssp lg_delta; KInit tau]
      ++ concat (map (receive_batch draws) (batches_from 0 (batch_sizes tau)))
      ++ [KCheck; KFlush].
Proof.
  intros HP _ Hf.
  destruct (phase_two_kkrt_receive_spec HP ssp draws enc bpr0 Rc_r0 fuel Hf)
    as (r & Hrun & Hi & Htr & _).
  exists r. repeat split; assumption.
Qed.

(** X6.  The corrections the receiver sends are [tau / 2^10] batches of [2^10]
    followed by one of [tau mod 2^10] when that is not zero: none is empty,
    none exceeds [2^10], and together they cover the [tau] OTs. *)
Theorem kkrt_corrections_cover {P : Params} (ssp : Z) (draws : nat -> Byte.byte)
    (enc : Z -> Z -> block) (bpr0 : Z -> Z) (Rc_r0 : Z -> block) (fuel : nat) :
  consistent -> tau < 2 ^ 31 -> (Z.to_nat tau <= fuel)%nat ->
  exists r, phase_two_kkrt_receive ssp draws enc bpr0 Rc_r0 fuel = Some r /\
    corrections (recv_trace r)
    = replicate (Z.to_nat (tau / 2 ^ 10)) (2 ^ 10)
      ++ (if tau mod 2 ^ 10 =? 0 then [] else [tau mod 2 ^ 10]) /\
    Forall (fun m => 0 < m <= 2 ^ 10) (corrections (recv_trace r)) /\
    sumZ (corrections (recv_trace r)) = tau.
Proof.
  intros HP _ Hf. pose proof HP as (_ & Ht & _).
  destruct (phase_two_kkrt_receive_spec HP ssp draws enc bpr0 Rc_r0 fuel Hf)
    as (r & Hrun & _ & Htr & _).
  exists r. split; [exact Hrun|].
  assert (Hc : corrections (recv_trace r) = batch_sizes tau).
  { rewrite Htr, !corrections_app, corrections_receive_batches, batches_from_sizes.
    cbn. apply app_nil_r. }
  rewrite Hc. split; [reflexivity|]. split.
  - apply batch_sizes_bounds. lia.
  - apply batch_sizes_sum. lia.
Qed.

(** X7.  Every choice the receiver stores lies in [[0, delta)]: [bpr[i]] is the
    [i]-th byte drawn reduced modulo [delta], [Rc_r[i]] is its encoding, and
    the entries outside [[0, tau)] are not written. *)
Theorem kkrt_choices_in_range {P : Params} (ssp : Z) (draws : nat -> Byte.byte)
    (enc : Z -> Z -> block) (bpr0 : Z -> Z) (Rc_r0 : Z -> block) (fuel : nat) :
  consistent -> tau < 2 ^ 31 -> (Z.to_nat tau <= fuel)%nat ->
  exists r, phase_two_kkrt_receive ssp draws enc bpr0 Rc_r0 fuel = Some r /\
    (forall i, 0 <= i < tau ->
       0 <= recv_bpr r i < delta /\
       recv_bpr r i = Z.of_N (Byte.to_N (draws (Z.to_nat i))) mod delta /\
       recv_Rc_r r i = enc i (recv_bpr r i)) /\
    (forall i, ~ 0 <= i < tau -> recv_bpr r i = bpr0 i /\ recv_Rc_r r i = Rc_r0 i).
Proof.
  intros HP _ Hf.
  destruct (phase_two_kkrt_receive_spec HP ssp draws enc bpr0 Rc_r0 fuel Hf)
    as (r & Hrun & _ & _ & Hb & Hr).
  exists r. split; [exact Hrun|]. split.
  - intros i Hi. rewrite Hr, Hb. case_decide; [|lia].
    pose proof (choice_of_range HP draws i). repeat split; lia.
  - intros i Hi. rewrite Hr, Hb. case_decide; [lia|]. split; reflexivity.
Qed.

(** X8.  The KKRT sender terminates likewise; for each batch it first receives the
    correction and then encodes, for each OT of the batch in index order, all
    [delta] choices in order.  [Ss[i][k]] holds the encoding of choice [k] for
    every [i < tau] and [k < delta], and nothing else is written. *)
Theorem kkrt_send_runs {P : Params} (ssp : Z) (enc : Z -> Z -> block)
    (Ss0 : Z -> Z -> block) (fuel : nat) :
  consistent -> tau < 2 ^ 31 -> (Z.to_nat tau <= fuel)%nat ->
  exists s, phase_two_kkrt_send ssp enc Ss0 fuel = Some s /\
    send_i s = tau /\
    send_trace s
    = [KConfigure ssp lg_delta; KInit tau]
      ++ concat (map send_batch (batches_from 0 (batch_sizes tau)))
      ++ [KCheck; KFlush] /\
    (forall i k, 0 <= i < tau -> 0 <= k < delta -> send_Ss s i k = enc i k) /\
    (forall i k, ~ (0 <= i < tau /\ 0 <= k < delta) -> send_Ss s i k = Ss0 i k).
Proof.
  intros HP _ Hf.
  destruct (phase_two_kkrt_send_spec HP ssp enc Ss0 fuel Hf)
    as (s & Hrun & Hi & Htr & HSs).
  exists s. split; [exact Hrun|]. split; [exact Hi|]. split; [exact Htr|]. split.
  - intros i k Hi' Hk. rewrite HSs. case_decide; [reflexivity|lia].
  - intros i k Hik. rewrite HSs. case_decide; [contradiction|reflexivity].
Qed.

(** X9.  The two routines fit together: the sender waits for corrections of
    exactly the sizes the receiver sends, in the same order, and for every OT
    [i < tau] the sender has encoded the very choice [bpr[i]] the receiver
    made, into [Ss[i][bpr[i]]]. *)
Theorem kkrt_roles_agree {P : Params} (ssp : Z) (draws : nat -> Byte.byte)
    (enc_r enc_s : Z -> Z -> block) (bpr0 : Z -> Z) (Rc_r0 : Z -> block)
    (Ss0 : Z -> Z -> block) (fuel_r fuel_s : nat) :
  consistent -> tau < 2 ^ 31 ->
  (Z.to_nat tau <= fuel_r)%nat -> (Z.to_nat tau <= fuel_s)%nat ->
  exists r s,
    phase_two_kkrt_receive ssp draws enc_r bpr0 Rc_r0 fuel_r = Some r /\
    phase_two_kkrt_send ssp enc_s Ss0 fuel_s = Some s /\
    corrections (send_trace s) = corrections (recv_trace r) /\
    (forall i, 0 <= i < tau ->
       In (KEncode i (recv_bpr r i)) (send_trace s) /\
       send_Ss s i (recv_bpr r i) = enc_s i (recv_bpr r i)).
Proof.
  intros HP _ Hfr Hfs.
  destruct (phase_two_kkrt_receive_spec HP ssp draws enc_r bpr0 Rc_r0 fuel_r Hfr)
    as (r & Hr & _ & Htr & Hb & _).
  destruct (phase_two_kkrt_send_spec HP ssp enc_s Ss0 fuel_s Hfs)
    as (s & Hs & _ & Hts & HSs).
  exists r, s. split; [exact Hr|]. split; [exact Hs|]. split.
  - rewrite Htr, Hts, !corrections_app, corrections_receive_batches,
      corrections_send_batches. reflexivity.
  - intros i Hi. rewrite Hb. case_decide; [|lia].
    pose proof (choice_of_range HP draws i) as Hc. split.
    + rewrite Hts. apply in_app_iff. right. apply in_app_iff. left.
      now apply send_batches_encode.
    + rewrite HSs. case_decide; [reflexivity|lia].
Qed.

(** * Further properties of the online phase *)

(** ** What the sanity assertion detects *)

Lemma eq_mod_iff_sub (x y m : Z) : 0 < m -> (x mod m = y mod m <-> (x - y) mod m = 0).
Proof.
  intros Hm. split; intros H.
  - rewrite Zminus_mod, H, Z.sub_diag. apply Zmod_0_l.
  - replace x with (y + (x - y)) at 1 by lia.
    rewrite <- Zplus_mod_idemp_r, H, Z.add_0_r. reflexivity.
Qed.

(** [unblind] without assuming that the mask added by the server is the one
    the client removes. *)
Lemma unblind_offset (d m C A S R : Z) :
  0 < d -> 0 < m ->
  (((((C + A) mod (d * m) - C mod d) mod (d * m)) / d + S) mod m - R - C / d) mod m
  = ((A / d) mod m + S - R) mod m.
Proof.
  intros Hd Hm.
  rewrite Zminus_mod_idemp_l.
  replace (C + A - C mod d) with (C / d * d + A)
    by (pose proof (Z.div_mod C d); lia).
  rewrite div_of_mod_mul, Z.div_add_l by lia.
  replace (((C / d + A / d) mod m + S) mod m - R - C / d)
    with (((C / d + A / d) mod m + S) mod m - (R + C / d)) by lia.
  rewrite Zminus_mod_idemp_l.
  replace ((C / d + A / d) mod m + S - (R + C / d))
    with ((C / d + A / d) mod m + (S - R - C / d)) by lia.
  replace ((A / d) mod m + S - R) with ((A / d) mod m + (S - R)) by lia.
  rewrite !Zplus_mod_idemp_l. f_equal; lia.
Qed.

(** The round with OT-correct phase-one material and arbitrary phase-two
    material. *)
Lemma online_round_offset {P : Params} (HP : consistent) (M : Preproc)
    (sk : Z -> bool) (c : Z) (dest : list Byte.byte) :
  0 <= c < tau ->
  (forall i : nat, Z.of_nat i < n ->
     lane (Rs_r M (c * n + Z.of_nat i)) 0
     = lane (at2 (Sc M (c * n + Z.of_nat i)) (b M (Z.of_nat i))) 0) ->
  online_round M sk c dest
  = ((lwr_value sk (map (a_val dest) (seq 0 (Z.to_nat n)))
      + lane (Ss M c (bpr M c mod delta)) 0 - lane (Rc_r M c) 0) mod p,
     lwr_value sk (map (a_val dest) (seq 0 (Z.to_nat n)))).
Proof.
  intros Hc Hphase1.
  pose proof (delta_pos HP) as Hd. pose proof (p_pos HP) as Hp.
  pose proof (q_pos HP) as Hq.
  unfold online_round, message. rewrite (Request_fields HP).
  cbn [fst snd a e_0 e_1 c_sum]. rewrite (eval_z_eq HP). f_equal.
  set (C := sumZ (map (c_val M sk c) (seq 0 (Z.to_nat n))) mod q).
  assert (HC : 0 <= C < q) by (apply Z.mod_pos_bound; lia).
  assert (Hdq : delta <= q) by (rewrite (q_delta_p HP); nia).
  assert (Hq32 : q < 2 ^ 32).
  { rewrite (q_eq HP). pose proof (lg_q_range HP).
    apply Z.pow_lt_mono_r; lia. }
  pose proof (Z.mod_pos_bound C delta Hd) as Hk.
  rewrite (Finalize_eq M c C _ HP) by lia.
  rewrite BlindEval_eq, (mod_delta_eq HP).
  rewrite map_seq_lookup_total by lia.
  rewrite (y_val_eq HP), Z2Nat.id by lia.
  rewrite Zminus_mod_idemp_r.
  replace (C mod delta - (C mod delta - bpr M c)) with (bpr M c) by lia.
  rewrite lane0_uint_lane, (atil_sum_eq HP M sk c dest Hc Hphase1).
  rewrite (mod_p_eq HP), (u32_mod_p HP), (shiftr_lg_delta HP).
  rewrite <- Zminus_mod_idemp_l, (u32_mod_p HP), Zminus_mod_idemp_l.
  replace ((sumZ (map (c_val M sk c) (seq 0 (Z.to_nat n)))
            + inner_product sk (map (a_val dest) (seq 0 (Z.to_nat n)))) mod q)
    with ((C + inner_product sk (map (a_val dest) (seq 0 (Z.to_nat n)))) mod q)
    by (unfold C; now rewrite Zplus_mod_idemp_l).
  rewrite (q_delta_p HP). unfold lwr_value.
  apply unblind_offset; assumption.
Qed.

Lemma offset_vanishes (Y S R m : Z) :
  0 < m -> ((Y mod m + S - R) mod m = Y mod m <-> S mod m = R mod m).
Proof.
  intros Hm. rewrite <- (Z.mod_mod Y m) at 2 by lia.
  rewrite !eq_mod_iff_sub by exact Hm.
  replace (Y mod m + S - R - Y mod m) with (S - R) by lia. reflexivity.
Qed.

(** X10.  When phase one is OT-correct for the slot, the reference value is the
    LWR value, the client's [z] differs from it by the difference, modulo
    [p], of the lane-0 values of [Ss[ctr][bpr[ctr] mod delta]] and
    [Rc_r[ctr]], and so [assert(eval_z == z)] holds exactly when those two
    agree modulo [p]. *)
Theorem sanity_check_detects_phase_two {P : Params} (M : Preproc) (sk : Z -> bool)
    (c : Z) (dest : list Byte.byte) :
  consistent -> 0 <= c < tau ->
  (forall i : nat, Z.of_nat i < n ->
     lane (Rs_r M (c * n + Z.of_nat i)) 0
     = lane (at2 (Sc M (c * n + Z.of_nat i)) (b M (Z.of_nat i))) 0) ->
  let r := online_round M sk c dest in
  let S := lane (Ss M c (bpr M c mod delta)) 0 in
  let R := lane (Rc_r M c) 0 in
  r.2 = (inner_product sk (a (Request M sk c dest).1) / delta) mod p /\
  r.1 = (r.2 + S - R) mod p /\
  (r.2 = r.1 <-> S mod p = R mod p).
Proof.
  intros HP Hc H1 r S R. unfold r.
  rewrite (online_round_offset HP M sk c dest Hc H1), Request_a. cbn [fst snd].
  split; [reflexivity|]. split; [reflexivity|].
  unfold lwr_value. fold S R.
  pose proof (offset_vanishes
                (inner_product sk (map (a_val dest) (seq 0 (Z.to_nat n))) / delta)
                S R p (p_pos HP)) as Hiff.
  split; intros H.
  - apply Hiff. symmetry. exact H.
  - symmetry. apply Hiff. exact H.
Qed.

(** ** Slots *)

(** X11.  Each round reads its own slice of the phase-one material: the index
    [ctr * n + i] stays inside the [n * tau] entries allocated, and two
    different (round, position) pairs never share an index. *)
Theorem slots_are_fresh {P : Params} (c c' : Z) (i i' : nat) :
  consistent -> 0 <= c < tau -> 0 <= c' < tau -> Z.of_nat i < n -> Z.of_nat i' < n ->
  0 <= slot c i < n * tau /\
  (slot c i = slot c' i' -> c = c' /\ i = i').
Proof.
  intros HP Hc Hc' Hi Hi'. split; [now apply slot_in_bounds|].
  rewrite !(slot_eq HP) by assumption. intros He.
  apply index_injective in He; lia.
Qed.

(** ** Sessions *)

Section Sessions.
Context {P : Params} (E : Env) (M : Preproc) (sk : Z -> bool).

Lemma loop_body_eq (s : loop_state) :
  ctr s = round s ->
  loop_body E M sk s
  = ({| round := round s; ctr := ctr s;
        printed := printed s ++ [round_z E M sk (ctr s)] |},
     round_passes E M sk (ctr s)).
Proof.
  intros Hr. unfold loop_body, round_passes, round_z, round_dest. rewrite Hr.
  destruct (seeds E (Z.to_nat (round s))) as [t x].
  destruct (online_round M sk (round s) (RandomOracle E (2 * n * 1) t x)) as [z ez].
  reflexivity.
Qed.

Lemma round_values_cons (c : Z) (k : nat) :
  map (fun j : nat => round_z E M sk (c + Z.of_nat j)) (seq 0 (S k))
  = round_z E M sk c
    :: map (fun j : nat => round_z E M sk (c + 1 + Z.of_nat j)) (seq 0 k).
Proof.
  cbn [seq map]. rewrite Z.add_0_r. f_equal.
  rewrite <- seq_shift, map_map. apply map_ext. intros j. f_equal. lia.
Qed.

(** The loop when the assertion holds in each of the next [k] rounds. *)
Lemma loop_from_all_pass (k : nat) (s : loop_state) :
  ctr s = round s -> 0 <= ctr s -> ctr s + Z.of_nat k < 2 ^ 32 ->
  (forall c, ctr s <= c < ctr s + Z.of_nat k -> round_passes E M sk c = true) ->
  (loop_from E M sk k s).2
  = Completed {| round := ctr s + Z.of_nat k; ctr := ctr s + Z.of_nat k;
                 printed := printed s
                            ++ map (fun j : nat => round_z E M sk (ctr s + Z.of_nat j))
                                 (seq 0 k) |}.
Proof.
  revert s. induction k as [|k IH]; intros s Hr H0 Hk Hpass.
  - cbn. rewrite Z.add_0_r, app_nil_r. destruct s; cbn in *; subst; reflexivity.
  - cbn [loop_from]. rewrite loop_body_eq, Hpass by (assumption || lia).
    set (s1 := advance _).
    assert (Hc1 : ctr s1 = ctr s + 1).
    { unfold s1, advance. cbn [ctr]. apply u32_small. lia. }
    assert (Hr1 : ctr s1 = round s1).
    { rewrite Hc1. unfold s1, advance. cbn [round]. lia. }
    specialize (IH s1 Hr1 ltac:(lia) ltac:(lia)).
    rewrite Hc1 in IH. specialize (IH ltac:(intros c Hc; apply Hpass; lia)).
    destruct (loop_from E M sk k s1) as [tr o]. cbn [snd] in IH |- *.
    rewrite IH, round_values_cons. unfold s1, advance. cbn [printed].
    rewrite <- app_assoc. cbn [app]. do 2 f_equal; lia.
Qed.

(** The loop when the assertion first fails [m] rounds from now. *)
Lemma loop_from_first_fail (k m : nat) (s : loop_state) :
  ctr s = round s -> 0 <= ctr s -> ctr s + Z.of_nat k < 2 ^ 32 -> (m < k)%nat ->
  (forall c, ctr s <= c < ctr s + Z.of_nat m -> round_passes E M sk c = true) ->
  round_passes E M sk (ctr s + Z.of_nat m) = false ->
  (loop_from E M sk k s).2
  = AssertFailed {| round := ctr s + Z.of_nat m; ctr := ctr s + Z.of_nat m;
                    printed := printed s
                               ++ map (fun j : nat => round_z E M sk (ctr s + Z.of_nat j))
                                    (seq 0 (S m)) |}.
Proof.
  revert m s. induction k as [|k IH]; intros m s Hr H0 Hk Hm Hpass Hfail; [lia|].
  cbn [loop_from]. rewrite loop_body_eq by assumption.
  destruct m as [|m].
  - rewrite Z.add_0_r in Hfail. rewrite Hfail. cbn. rewrite !Z.add_0_r.
    rewrite <- Hr. reflexivity.
  - rewrite Hpass by lia.
    set (s1 := advance _).
    assert (Hc1 : ctr s1 = ctr s + 1).
    { unfold s1, advance. cbn [ctr]. apply u32_small. lia. }
    assert (Hr1 : ctr s1 = round s1).
    { rewrite Hc1. unfold s1, advance. cbn [round]. lia. }
    specialize (IH m s1 Hr1 ltac:(lia) ltac:(lia) ltac:(lia)).
    rewrite Hc1 in IH.
    specialize (IH ltac:(intros c Hc; apply Hpass; lia)).
    replace (ctr s + 1 + Z.of_nat m) with (ctr s + Z.of_nat (S m)) in IH by lia.
    specialize (IH Hfail).
    destruct (loop_from E M sk k s1) as [tr o]. cbn [snd] in IH |- *.
    rewrite IH, (round_values_cons (ctr s) (S m)). unfold s1, advance. cbn [printed].
    rewrite <- app_assoc. cbn [app]. reflexivity.
Qed.

End Sessions.

Section SessionOutcome.
Context {P : Params} (HP : consistent) (E : Env) (M : Preproc) (sk : Z -> bool).

Lemma round_passes_iff (c : Z) :
  0 <= c < tau ->
  (forall i : nat, Z.of_nat i < n ->
     lane (Rs_r M (c * n + Z.of_nat i)) 0
     = lane (at2 (Sc M (c * n + Z.of_nat i)) (b M (Z.of_nat i))) 0) ->
  (round_passes E M sk c = true
   <-> lane (Ss M c (bpr M c mod delta)) 0 mod p = lane (Rc_r M c) 0 mod p).
Proof.
  intros Hc H1. unfold round_passes.
  rewrite (online_round_offset HP M sk c (round_dest E c) Hc H1). cbn [fst snd].
  rewrite Z.eqb_eq. unfold lwr_value.
  set (Y := inner_product sk (map (a_val (round_dest E c)) (seq 0 (Z.to_nat n))) / delta).
  pose proof (offset_vanishes Y (lane (Ss M c (bpr M c mod delta)) 0)
                (lane (Rc_r M c) 0) p (p_pos HP)) as Hiff.
  split; intros H.
  - apply Hiff. symmetry. exact H.
  - symmetry. apply Hiff. exact H.
Qed.

Lemma round_z_correct (c : Z) :
  0 <= c < tau ->
  (forall i : nat, Z.of_nat i < n ->
     lane (Rs_r M (c * n + Z.of_nat i)) 0
     = lane (at2 (Sc M (c * n + Z.of_nat i)) (b M (Z.of_nat i))) 0) ->
  lane (Ss M c (bpr M c mod delta)) 0 mod p = lane (Rc_r M c) 0 mod p ->
  round_z E M sk c = lwr_value sk (a (Request M sk c (round_dest E c)).1).
Proof.
  intros Hc H1 H2. unfold round_z.
  rewrite (online_round_offset HP M sk c (round_dest E c) Hc H1), Request_a. cbn [fst].
  unfold lwr_value.
  set (Y := inner_product sk (map (a_val (round_dest E c)) (seq 0 (Z.to_nat n))) / delta).
  apply (offset_vanishes Y (lane (Ss M c (bpr M c mod delta)) 0)
           (lane (Rc_r M c) 0) p (p_pos HP)). exact H2.
Qed.

End SessionOutcome.

(** X12.  A session whose preprocessing is OT-correct in every slot it uses runs
    all [num_rounds] rounds, and the values it prints are, in order, the LWR
    values of the successive oracle outputs. *)
Theorem session_prints_lwr_values {P : Params} (E : Env) (M : Preproc) (sk : Z -> bool) :
  consistent ->
  (forall c, 0 <= c < num_rounds ->
     (forall i : nat, Z.of_nat i < n ->
        lane (Rs_r M (c * n + Z.of_nat i)) 0
        = lane (at2 (Sc M (c * n + Z.of_nat i)) (b M (Z.of_nat i))) 0) /\
     lane (Ss M c (bpr M c)) 0 = lane (Rc_r M c) 0 /\
     0 <= bpr M c < delta) ->
  (online_phase E M sk).2
  = Completed
      {| round := num_rounds; ctr := num_rounds;
         printed :=
           map (fun r : nat =>
                  (inner_product sk
                     (a (Request M sk (Z.of_nat r) (round_dest E (Z.of_nat r))).1)
                   / delta) mod p)
             (seq 0 (Z.to_nat num_rounds)) |}.
Proof.
  intros HP HOT. pose proof HP as (_ & Ht & _ & _ & _ & Hnr).
  assert (Hmod : forall c, 0 <= c < num_rounds ->
            lane (Ss M c (bpr M c mod delta)) 0 mod p = lane (Rc_r M c) 0 mod p).
  { intros c Hc. destruct (HOT c Hc) as (_ & H2 & H3).
    rewrite (Z.mod_small (bpr M c)) by exact H3. now rewrite H2. }
  unfold online_phase.
  rewrite loop_from_all_pass; cbn [ctr round printed init_state app].
  - rewrite Z.add_0_l, Z2Nat.id by lia. do 2 f_equal.
    apply map_ext_in. intros r Hr. apply in_seq in Hr. rewrite Z.add_0_l.
    apply (round_z_correct HP); [lia|apply HOT; lia|apply Hmod; lia].
  - reflexivity.
  - lia.
  - lia.
  - intros c Hc. apply (round_passes_iff HP); [lia|apply HOT; lia|apply Hmod; lia].
Qed.

(** X13.  A session stops in the first round whose phase-two material does not
    match modulo [p]: the assertion of that round fails after its [z] has been
    printed, [ctr] still holds the index of that round, and the later rounds
    are not run. *)
Theorem session_aborts_at_first_mismatch {P : Params} (E : Env) (M : Preproc)
    (sk : Z -> bool) (r0 : Z) :
  consistent -> 0 <= r0 < num_rounds ->
  (forall c, 0 <= c <= r0 ->
     forall i : nat, Z.of_nat i < n ->
       lane (Rs_r M (c * n + Z.of_nat i)) 0
       = lane (at2 (Sc M (c * n + Z.of_nat i)) (b M (Z.of_nat i))) 0) ->
  (forall c, 0 <= c < r0 ->
     lane (Ss M c (bpr M c mod delta)) 0 mod p = lane (Rc_r M c) 0 mod p) ->
  lane (Ss M r0 (bpr M r0 mod delta)) 0 mod p <> lane (Rc_r M r0) 0 mod p ->
  exists sf, (online_phase E M sk).2 = AssertFailed sf /\
    ctr sf = r0 /\ round sf = r0 /\
    Z.of_nat (length (printed sf)) = r0 + 1.
Proof.
  intros HP Hr0 H1 H2 Hbad. pose proof HP as (_ & Ht & _ & _ & _ & Hnr).
  unfold online_phase.
  rewrite (loop_from_first_fail E M sk (Z.to_nat num_rounds) (Z.to_nat r0));
    cbn [ctr round printed init_state app].
  - eexists. split; [reflexivity|]. cbn [ctr round printed].
    rewrite length_map, length_seq. repeat split; lia.
  - reflexivity.
  - lia.
  - lia.
  - lia.
  - intros c Hc. apply (round_passes_iff HP); [lia|apply H1; lia|apply H2; lia].
  - rewrite Z.add_0_l, Z2Nat.id by lia.
    destruct (round_passes E M sk r0) eqn:Hp; [|reflexivity].
    exfalso. apply Hbad. apply (round_passes_iff HP E M sk r0); [lia|apply H1; lia|exact Hp].
Qed.

(** ** Ranges and the all-zero key *)

Lemma sumZ_zeros {A : Type} (l : list A) : sumZ (map (fun _ => 0) l) = 0.
Proof. induction l as [|x l IH]; [reflexivity|exact IH]. Qed.

(** X14.  Whatever the material and the oracle output, the Request message and the
    finalized value stay in the range of their moduli: [a[i]] and [e_1[i]]
    are in [[0, q)], [e_0[i]] is 0, [c_sum] is in [[0, q)], [bpr_bar] in
    [[0, delta)] and [z] in [[0, p)]. *)
Theorem round_values_in_range {P : Params} (M : Preproc) (sk : Z -> bool) (c : Z)
    (dest : list Byte.byte) (c_sum' : Z) (y : list Z) :
  consistent ->
  let r := Request M sk c dest in
  Forall (fun x => 0 <= x < q) (a r.1) /\
  Forall (fun x => x = 0) (e_0 r.1) /\
  Forall (fun x => 0 <= x < q) (e_1 r.1) /\
  0 <= c_sum r.1 < q /\
  0 <= r.2 < delta /\
  0 <= Finalize M c c_sum' y < p.
Proof.
  intros HP r. unfold r. rewrite (Request_fields HP). cbn [fst snd a e_0 e_1 c_sum].
  pose proof (q_pos HP) as Hq. pose proof (delta_pos HP) as Hd.
  pose proof (p_pos HP) as Hp.
  repeat split.
  - apply Forall_forall. intros x Hx. apply in_map_iff in Hx. destruct Hx as (i & <- & _).
    pose proof (mod_q_range HP (Z.lor (u32 (Z.shiftl (u8_at dest (2 * i)) 8))
                                  (u8_at dest (2 * i + 1)))) as H.
    fold (a_val dest i) in H. lia.
  - apply Forall_forall. intros x Hx. apply in_map_iff in Hx. destruct Hx as (i & <- & _).
    reflexivity.
  - apply Forall_forall. intros x Hx. apply in_map_iff in Hx. destruct Hx as (i & <- & _).
    unfold e_1_val.
    match goal with |- _ <= mod_q ?t < _ => pose proof (mod_q_range HP t) end. lia.
  - apply Z.mod_pos_bound. lia.
  - apply Z.mod_pos_bound. lia.
  - apply Z.mod_pos_bound. lia.
  - apply Z.mod_pos_bound. lia.
  - unfold Finalize. rewrite (mod_p_eq HP). apply Z.mod_pos_bound. lia.
  - unfold Finalize. rewrite (mod_p_eq HP). apply Z.mod_pos_bound. lia.
Qed.

(** X15.  With the all-zero key every round returns 0, whatever the oracle output,
    and its sanity assertion holds. *)
Theorem zero_key_gives_zero {P : Params} (M : Preproc) (c : Z) (dest : list Byte.byte) :
  consistent -> 0 <= c < num_rounds ->
  (forall i : nat, Z.of_nat i < n ->
     lane (Rs_r M (c * n + Z.of_nat i)) 0
     = lane (at2 (Sc M (c * n + Z.of_nat i)) (b M (Z.of_nat i))) 0) ->
  lane (Ss M c (bpr M c)) 0 = lane (Rc_r M c) 0 ->
  0 <= bpr M c < delta ->
  online_round M (fun _ => false) c dest = (0, 0).
Proof.
  intros HP Hc H1 H2 H3. pose proof HP as (_ & _ & _ & _ & _ & Hnr).
  rewrite (online_round_offset HP) by (assumption || lia).
  rewrite (Z.mod_small (bpr M c)), H2 by exact H3.
  unfold lwr_value, inner_product. rewrite sumZ_zeros.
  rewrite Z.div_0_l, Z.mod_0_l by (pose proof (delta_pos HP); pose proof (p_pos HP); lia).
  f_equal. replace (0 + lane (Rc_r M c) 0 - lane (Rc_r M c) 0) with 0 by lia.
  apply Z.mod_0_l. pose proof (p_pos HP). lia.
Qed.

(** ** Only lane 0 of a block is ever used *)

Section Lanes.
Context {P : Params} (M M' : Preproc) (sk : Z -> bool) (c : Z) (dest : list Byte.byte).
Context (Hb : forall k, b M k = b M' k) (Hbpr : forall j, bpr M j = bpr M' j).
Context (HSc : forall k bit, lane (at2 (Sc M k) bit) 0 = lane (at2 (Sc M' k) bit) 0).
Context (HRs : forall k, lane (Rs_r M k) 0 = lane (Rs_r M' k) 0).
Context (HSs : forall j k, lane (Ss M j k) 0 = lane (Ss M' j k) 0).
Context (HRc : forall j, lane (Rc_r M j) 0 = lane (Rc_r M' j) 0).

Lemma c_val_lanes (i : nat) : c_val M sk c i = c_val M' sk c i.
Proof. unfold c_val, b_bar. now rewrite !at2_Sc_uint, Hb, HSc. Qed.

Lemma e_1_val_lanes (i : nat) : e_1_val M sk c dest i = e_1_val M' sk c dest i.
Proof. unfold e_1_val, b_bar. now rewrite c_val_lanes, !at2_Sc_uint, Hb, HSc. Qed.

Lemma Request_lanes : Request M sk c dest = Request M' sk c dest.
Proof.
  unfold Request. rewrite !request_loop_eq. cbn [a e_0 e_1 c_sum].
  rewrite (map_ext _ _ c_val_lanes), (map_ext _ _ e_1_val_lanes), Hbpr.
  reflexivity.
Qed.

Lemma atil_val_lanes (e0 e1 : list Z) (i : nat) :
  atil_val M c e0 e1 i = atil_val M' c e0 e1 i.
Proof. unfold atil_val. now rewrite !lane0_uint_lane, HRs. Qed.

Lemma BlindEval_lanes (e0 e1 : list Z) (bpr_bar : Z) :
  BlindEval M sk c e0 e1 bpr_bar = BlindEval M' sk c e0 e1 bpr_bar.
Proof.
  rewrite !BlindEval_eq, !blind_eval_loop_eq. cbn [atil_sum].
  rewrite (map_ext _ _ (fun i : nat =>
             f_equal (fun x => at2 x (sk (Z.of_nat i))) (atil_val_lanes e0 e1 i))).
  apply map_ext. intros k. unfold y_val. now rewrite !lane0_uint_lane, HSs.
Qed.

Lemma online_round_lanes : online_round M sk c dest = online_round M' sk c dest.
Proof.
  unfold online_round, message. rewrite Request_lanes, BlindEval_lanes.
  f_equal. unfold Finalize. now rewrite !lane0_uint_lane, HRc.
Qed.

End Lanes.

(** X16.  A round uses nothing of a 128-bit OT block but its lane 0: two sets of
    preprocessing material with the same choices and the same lane 0 in every
    block give the same [z] and the same reference value. *)
Theorem only_lane0_is_read {P : Params} (M M' : Preproc) (sk : Z -> bool) (c : Z)
    (dest : list Byte.byte) :
  (forall k, b M k = b M' k) -> (forall j, bpr M j = bpr M' j) ->
  (forall k bit, lane (at2 (Sc M k) bit) 0 = lane (at2 (Sc M' k) bit) 0) ->
  (forall k, lane (Rs_r M k) 0 = lane (Rs_r M' k) 0) ->
  (forall j k, lane (Ss M j k) 0 = lane (Ss M' j k) 0) ->
  (forall j, lane (Rc_r M j) 0 = lane (Rc_r M' j) 0) ->
  online_round M sk c dest = online_round M' sk c dest.
Proof. intros. now apply online_round_lanes. Qed.

(** ** Phase one feeds the online phase *)

(** X17.  When the choice vector is the one the phase-one receiver tiled and the
    extender was OT-correct at every index, [Rs_r[k] = Sc[k][b[k]]] for
    [k < n * tau], each round [ctr < tau] finds the premise it relies on:
    [Rs_r[ctr*n + i] = Sc[ctr*n + i][b[i]]], with the choice bit of row 0. *)
Theorem tiling_gives_round_premise {P : Params} (M : Preproc) (b_n bv : Z -> bool)
    (c : Z) (i : nat) :
  consistent ->
  (forall k, b M k = phase_one_iknp_receive b_n bv k) ->
  (forall k, 0 <= k < n * tau -> Rs_r M k = at2 (Sc M k) (b M k)) ->
  0 <= c < tau -> Z.of_nat i < n ->
  Rs_r M (c * n + Z.of_nat i) = at2 (Sc M (c * n + Z.of_nat i)) (b M (Z.of_nat i)) /\
  b M (c * n + Z.of_nat i) = b M (Z.of_nat i).
Proof.
  intros HP Hb Hot Hc Hi. pose proof HP as (Hn & Ht & _).
  assert (Hk : 0 <= c * n + Z.of_nat i < n * tau) by nia.
  assert (Hk0 : 0 <= Z.of_nat i < n * tau) by nia.
  assert (Hbb : b M (c * n + Z.of_nat i) = b M (Z.of_nat i)).
  { rewrite !Hb, !(tile_spec HP) by assumption.
    rewrite Z.add_comm, Z_mod_plus_full. reflexivity. }
  split; [|exact Hbb]. rewrite Hot by exact Hk. now rewrite Hbb.
Qed.

(** * [main] with more rounds than the preprocessing has slots (C3) *)

Section MainLoop.
Context {P : Params} (E : Env) (M : Preproc) (sk : Z -> bool).





(** While every round is in bounds the checked loop is [loop_from]. *)
Lemma main_loop_in_bounds (k : nat) (s : loop_state) :
  ctr s = round s -> 0 <= ctr s -> ctr s + Z.of_nat k < 2 ^ 32 ->
  (forall c, ctr s <= c < ctr s + Z.of_nat k -> round_in_bounds c = true) ->
  main_loop E M sk k s = ((loop_from E M sk k s).1, Ran (loop_from E M sk k s).2).
Proof.
  revert s. induction k as [|k IH]; intros s Hr H0 Hk Hin; [reflexivity|].
  cbn [main_loop loop_from]. rewrite Hin by lia.
  destruct (loop_body_state E M sk s) as (Hbr & Hbc & _).
  destruct (loop_body E M sk s) as [s' ok]. cbn [fst] in Hbr, Hbc.
  destruct ok; [|reflexivity].
  assert (Hadv : ctr (advance s') = ctr s + 1).
  { unfold advance. cbn [ctr]. rewrite Hbc. apply u32_small. lia. }
  assert (Hadr : round (advance s') = round s + 1).
  { unfold advance. cbn [round]. now rewrite Hbr. }
  rewrite (IH (advance s')); [|lia|lia|lia|intros c Hc; apply Hin; lia].
  destruct (loop_from E M sk k (advance s')) as [tr o]. reflexivity.
Qed.


End MainLoop.

(** The sizes against the indices: the startup and every round below [tau]
    stay inside the vectors, the round at [tau] and the later ones do not. *)
Lemma startup_in_bounds_ok {P : Params} :
  0 <= n -> 0 < tau -> n * tau < 2 ^ 32 -> startup_in_bounds = true.
Proof.
  intros Hn Ht Hnt. unfold startup_in_bounds, phase_one_size.
  apply forallb_forall. intros i Hi. apply in_seq in Hi.
  rewrite u32_small by nia. apply Z.ltb_lt. nia.
Qed.

Lemma round_in_bounds_below {P : Params} (c : Z) :
  0 <= n -> 0 <= tau -> n * tau < 2 ^ 32 -> 0 <= c < tau ->
  round_in_bounds c = true.
Proof.
  intros Hn Ht Hnt Hc. unfold round_in_bounds, phase_one_size, phase_two_size.
  apply andb_true_intro. split; [|apply Z.ltb_lt; lia].
  apply forallb_forall. intros i Hi. apply in_seq in Hi.
  assert (c * n + n <= n * tau) by nia.
  assert (0 <= c * n) by nia.
  unfold slot. rewrite (u32_small (c * n)) by lia.
  rewrite !u32_small by lia. apply Z.ltb_lt. lia.
Qed.


(** In a consistent configuration no index leaves its vector, and [main] is
    the online phase the other theorems speak of. *)
Lemma main_is_online_phase {P : Params} (E : Env) (M : Preproc) (sk : Z -> bool) :
  consistent -> 0 < tau ->
  main E M sk = Online ((online_phase E M sk).1, Ran (online_phase E M sk).2).
Proof.
  intros (Hn & Ht & Hnt & _ & _ & Hr) Hpos. unfold main, online_phase.
  rewrite startup_in_bounds_ok by lia. f_equal.
  apply main_loop_in_bounds; cbn [ctr round init_state]; [reflexivity|lia|lia|].
  intros c Hc. apply round_in_bounds_below; lia.
Qed.


Section WithRounds.
Context {P : Params} (r : Z).






















End WithRounds.



(** ** The counter and the overrun on concrete sessions *)

Lemma round_counter_witness :
  consistent (P := pool) /\
  exists sf,
    (online_phase (P := pool) sample_env sample_material sample_key).2 = Completed sf /\
    ctr sf = num_rounds (Params := pool) /\
    length (online_phase (P := pool) sample_env sample_material sample_key).1
    = S (Z.to_nat (num_rounds (Params := pool))).
Proof.
  split; [exact pool_consistent|].
  pose proof (round_counter (P := pool) sample_env sample_material sample_key
                pool_consistent) as H.
  cbv zeta in H. destruct H as (_ & _ & _ & _ & _ & _ & _ & _ & _ & Hrun).
  destruct (Hrun (fun c _ => sample_material_correct c)) as (sf & Hsf & Hc & _ & _ & Hl).
  exists sf. split; [exact Hsf|]. split; [exact Hc|exact Hl].
Defined.


(** * The further properties on concrete inputs *)

Lemma pool_tau_int : tau (Params := pool) < 2 ^ 31.
Proof. vm_compute. reflexivity. Qed.

Lemma kkrt_receive_runs_witness :
  exists r,
    phase_two_kkrt_receive (P := pool) 40 sample_byte sample_enc (fun _ => 0) (fun _ => 0)
      (Z.to_nat (tau (Params := pool))) = Some r /\
    recv_i r = tau (Params := pool).
Proof.
  destruct (kkrt_receive_runs (P := pool) 40 sample_byte sample_enc (fun _ => 0)
              (fun _ => 0) (Z.to_nat (tau (Params := pool)))
              pool_consistent pool_tau_int (Nat.le_refl _)) as (r & Hr & Hi & _).
  exists r. split; assumption.
Defined.

Lemma kkrt_corrections_cover_witness :
  exists r,
    phase_two_kkrt_receive (P := pool) 40 sample_byte sample_enc (fun _ => 0) (fun _ => 0)
      (Z.to_nat (tau (Params := pool))) = Some r /\
    sumZ (corrections (recv_trace r)) = tau (Params := pool).
Proof.
  destruct (kkrt_corrections_cover (P := pool) 40 sample_byte sample_enc (fun _ => 0)
              (fun _ => 0) (Z.to_nat (tau (Params := pool)))
              pool_consistent pool_tau_int (Nat.le_refl _)) as (r & Hr & _ & _ & Hs).
  exists r. split; assumption.
Defined.

Lemma kkrt_choices_in_range_witness :
  exists r,
    phase_two_kkrt_receive (P := pool) 40 sample_byte sample_enc (fun _ => 0) (fun _ => 0)
      (Z.to_nat (tau (Params := pool))) = Some r /\
    0 <= recv_bpr r 65535 < delta (P := pool).
Proof.
  destruct (kkrt_choices_in_range (P := pool) 40 sample_byte sample_enc (fun _ => 0)
              (fun _ => 0) (Z.to_nat (tau (Params := pool)))
              pool_consistent pool_tau_int (Nat.le_refl _)) as (r & Hr & Hin & _).
  exists r. split; [exact Hr|].
  apply (Hin 65535). vm_compute. intuition congruence.
Defined.

Lemma kkrt_send_runs_witness :
  exists s,
    phase_two_kkrt_send (P := pool) 40 sample_enc (fun _ _ => 0)
      (Z.to_nat (tau (Params := pool))) = Some s /\
    send_i s = tau (Params := pool).
Proof.
  destruct (kkrt_send_runs (P := pool) 40 sample_enc (fun _ _ => 0)
              (Z.to_nat (tau (Params := pool)))
              pool_consistent pool_tau_int (Nat.le_refl _)) as (s & Hs & Hi & _).
  exists s. split; assumption.
Defined.

Lemma kkrt_roles_agree_witness :
  exists r s,
    phase_two_kkrt_receive (P := pool) 40 sample_byte sample_enc (fun _ => 0) (fun _ => 0)
      (Z.to_nat (tau (Params := pool))) = Some r /\
    phase_two_kkrt_send (P := pool) 40 sample_enc (fun _ _ => 0)
      (Z.to_nat (tau (Params := pool))) = Some s /\
    corrections (send_trace s) = corrections (recv_trace r).
Proof.
  destruct (kkrt_roles_agree (P := pool) 40 sample_byte sample_enc sample_enc (fun _ => 0)
              (fun _ => 0) (fun _ _ => 0) (Z.to_nat (tau (Params := pool)))
              (Z.to_nat (tau (Params := pool)))
              pool_consistent pool_tau_int (Nat.le_refl _) (Nat.le_refl _))
    as (r & s & Hr & Hs & Hc & _).
  exists r, s. exact (conj Hr (conj Hs Hc)).
Defined.

Lemma pool_slot_3 : 0 <= 3 < tau (Params := pool).
Proof. vm_compute. intuition congruence. Qed.

Lemma sanity_check_detects_phase_two_witness :
  let r := online_round (P := pool) sample_material sample_key 3 sample_dest in
  r.1 = (r.2 + lane (Ss sample_material 3 (bpr sample_material 3 mod delta (P := pool))) 0
         - lane (Rc_r sample_material 3) 0) mod p (P := pool).
Proof.
  exact (proj1 (proj2 (sanity_check_detects_phase_two (P := pool) sample_material
                         sample_key 3 sample_dest pool_consistent pool_slot_3
                         (sample_phase_one 3)))).
Defined.

Lemma slots_are_fresh_witness :
  0 <= slot (P := pool) 3 7 < n (Params := pool) * tau (Params := pool).
Proof.
  assert (H5 : 0 <= 5 < tau (Params := pool)) by (vm_compute; intuition congruence).
  assert (H7 : Z.of_nat 7 < n (Params := pool)) by (vm_compute; reflexivity).
  assert (H9 : Z.of_nat 9 < n (Params := pool)) by (vm_compute; reflexivity).
  exact (proj1 (slots_are_fresh (P := pool) 3 5 7 9 pool_consistent pool_slot_3 H5 H7 H9)).
Defined.

Lemma session_prints_lwr_values_witness :
  exists sf,
    (online_phase (P := pool) sample_env sample_material sample_key).2 = Completed sf /\
    ctr sf = num_rounds (Params := pool).
Proof.
  eexists. split.
  - exact (session_prints_lwr_values (P := pool) sample_env sample_material sample_key
             pool_consistent (fun c _ => sample_material_correct c)).
  - reflexivity.
Defined.

Lemma corrupted_material_rounds :
  (forall c, 0 <= c <= 2 ->
     forall i : nat, Z.of_nat i < n (Params := pool) ->
       lane (Rs_r corrupted_material (c * n (Params := pool) + Z.of_nat i)) 0
       = lane (at2 (Sc corrupted_material (c * n (Params := pool) + Z.of_nat i))
                 (b corrupted_material (Z.of_nat i))) 0) /\
  (forall c, 0 <= c < 2 ->
     lane (Ss corrupted_material c (bpr corrupted_material c mod delta (P := pool))) 0
       mod p (P := pool)
     = lane (Rc_r corrupted_material c) 0 mod p (P := pool)) /\
  lane (Ss corrupted_material 2 (bpr corrupted_material 2 mod delta (P := pool))) 0
    mod p (P := pool)
  <> lane (Rc_r corrupted_material 2) 0 mod p (P := pool).
Proof.
  split; [|split].
  - intros c _ i Hi. exact (sample_phase_one c i Hi).
  - intros c Hc. assert (c = 0 \/ c = 1) as [-> | ->] by lia; vm_compute; reflexivity.
  - vm_compute. discriminate.
Qed.

Lemma session_aborts_at_first_mismatch_witness :
  exists sf,
    (online_phase (P := pool) sample_env corrupted_material sample_key).2 = AssertFailed sf /\
    ctr sf = 2.
Proof.
  assert (H2 : 0 <= 2 < num_rounds (Params := pool)) by (vm_compute; intuition congruence).
  destruct corrupted_material_rounds as (H1 & Hok & Hbad).
  destruct (session_aborts_at_first_mismatch (P := pool) sample_env corrupted_material
              sample_key 2 pool_consistent H2 H1 Hok Hbad) as (sf & Hsf & Hc & _).
  exists sf. split; assumption.
Defined.

Lemma round_values_in_range_witness :
  0 <= (Request (P := pool) sample_material sample_key 3 sample_dest).2 < delta (P := pool).
Proof.
  exact (proj1 (proj2 (proj2 (proj2 (proj2
           (round_values_in_range (P := pool) sample_material sample_key 3 sample_dest 0 []
              pool_consistent)))))).
Defined.

Lemma zero_key_gives_zero_witness :
  online_round (P := pool) sample_material (fun _ => false) 3 sample_dest = (0, 0).
Proof.
  assert (Hc : 0 <= 3 < num_rounds (Params := pool)) by (vm_compute; intuition congruence).
  destruct (sample_material_correct 3) as (H1 & H2 & H3).
  exact (zero_key_gives_zero (P := pool) sample_material 3 sample_dest
           pool_consistent Hc H1 H2 H3).
Defined.

Lemma lane0_add_high (x y : Z) : lane (x + 2 ^ 32 * y) 0 = lane x 0.
Proof.
  unfold lane. rewrite !Z.shiftr_0_r, !(land_mask _ 32) by lia.
  rewrite Z.mul_comm. apply Z_mod_plus_full.
Qed.

Lemma only_lane0_is_read_witness :
  online_round (P := pool) sample_material sample_key 3 sample_dest
  = online_round (P := pool) relaned_material sample_key 3 sample_dest.
Proof.
  apply (only_lane0_is_read (P := pool) sample_material relaned_material sample_key 3
           sample_dest).
  - reflexivity.
  - reflexivity.
  - intros k bit. destruct bit; symmetry; apply lane0_add_high.
  - intros k. symmetry. apply lane0_add_high.
  - intros j k. symmetry. apply lane0_add_high.
  - intros j. symmetry. apply lane0_add_high.
Defined.

Lemma tiny_consistent : consistent (P := tiny).
Proof. unfold consistent. vm_compute. intuition congruence. Qed.

Lemma tiling_gives_round_premise_witness :
  Rs_r tiled_material (1 * n (Params := tiny) + Z.of_nat 3)
  = at2 (Sc tiled_material (1 * n (Params := tiny) + Z.of_nat 3))
      (b tiled_material (Z.of_nat 3)).
Proof.
  assert (H1 : 0 <= 1 < tau (Params := tiny)) by (vm_compute; intuition congruence).
  assert (H3 : Z.of_nat 3 < n (Params := tiny)) by (vm_compute; reflexivity).
  exact (proj1 (tiling_gives_round_premise (P := tiny) tiled_material sample_choice
                  (fun _ => false) 1 3 tiny_consistent (fun k => eq_refl)
                  (fun k _ => eq_refl) H1 H3)).
Defined.
